(** * Group: an ordered key-value container extending the native Map

    A shallow embedding of the [Group] class (the parameterised variant with
    [first(amount)], [last(amount)], [fallback] and [concact], and the [at] /
    [keyAt] methods of the second variant in [src/group.ts]).

    Modelling choices.
    - JavaScript values are first-order values [val]; objects live in a heap
      and are denoted by references, so that "returns the group itself", "a
      new group" and aliasing between receiver and arguments can be stated.
    - The native Map is modelled as ECMAScript specifies it: a list of slots
      in insertion order, where [delete] empties a slot in place and [set]
      appends, so that an iterator (an index into that list) stays valid
      while the map is mutated during a [for ... of] loop.
    - Numbers are exact rationals extended with NaN and the two infinities
      (rounding of doubles and the sign of zero are not modelled).
    - Callbacks are functions of their argument list and of the heap they
      may read at the time of the call: they observe, they do not write.
      Every invocation is counted in the store.
    - [for ... of] takes fuel; running out of it is the outcome [OutOfFuel]. *)

From Stdlib Require Import ZArith QArith Qcanon Qround String Lia.
From stdpp Require Import base decidable option list numbers strings.

Open Scope Z_scope.
Open Scope nat_scope.

(** ** Values *)

Abbreviation ref := nat.

(** A JavaScript number. *)
Inductive num :=
| Fin (q : Qc)
| NaN
| PosInf
| NegInf.

Inductive val :=
| VUndef
| VNull
| VBool (b : bool)
| VNum (n : num)
| VStr (s : string)
| VRef (r : ref).

#[global] Instance num_eq_dec : EqDecision num.
Proof. solve_decision. Defined.

#[global] Instance val_eq_dec : EqDecision val.
Proof. solve_decision. Defined.

Definition num_of_Z (z : Z) : num := Fin (Q2Qc (inject_Z z)).
Definition num_of_nat (n : nat) : num := num_of_Z (Z.of_nat n).

(** ToBoolean *)
Definition truthy (v : val) : bool :=
  match v with
  | VUndef | VNull => false
  | VBool b => b
  | VNum (Fin q) => negb (Qeq_bool q 0)
  | VNum NaN => false
  | VNum _ => true
  | VStr s => negb (String.eqb s "")
  | VRef _ => true
  end.

(** ** Heap objects *)

(** One record of a Map's entry list; [None] is a record emptied by
    [delete]. *)
Abbreviation slot := (option (val * val)).

Inductive obj :=
| OGroup (sl : list slot)
| OOther.

Abbreviation heap := (list obj).

(** A callback: applied to its arguments, it may read the heap. *)
Definition callback := list val → heap → val.

(** An actual parameter: a function or any other value. *)
Inductive arg :=
| Fn (f : callback)
| NotFn (v : val).

Inductive jstype :=
| TUndefined | TObject | TBoolean | TNumber | TString | TFunction.

#[global] Instance jstype_eq_dec : EqDecision jstype.
Proof. solve_decision. Defined.

Definition typeof (a : arg) : jstype :=
  match a with
  | Fn _ => TFunction
  | NotFn VUndef => TUndefined
  | NotFn VNull => TObject
  | NotFn (VBool _) => TBoolean
  | NotFn (VNum _) => TNumber
  | NotFn (VStr _) => TString
  | NotFn (VRef _) => TObject
  end.

(** ** Errors, store and the state-and-error monad *)

(** What a [GroupError] carries as its [cause]: the offending parameter, or
    the array of a rest parameter. *)
Inductive cause :=
| OfArg (a : arg)
| OfRest (l : list arg).

Inductive exn :=
| GroupError (message : string) (c : cause)
| TypeError.

Inductive outcome (A : Type) :=
| Ok (a : A)
| Throw (e : exn)
| OutOfFuel.
Arguments Ok {A} a.
Arguments Throw {A} e.
Arguments OutOfFuel {A}.

Record store := mkStore {
  objs : heap;
  calls : nat   (* number of callback invocations so far *)
}.

Definition M (A : Type) : Type := store → outcome A * store.

Definition ret {A} (a : A) : M A := fun st => (Ok a, st).
Definition throw {A} (e : exn) : M A := fun st => (Throw e, st).
Definition out_of_fuel {A} : M A := fun st => (OutOfFuel, st).

Definition bind {A B} (m : M A) (k : A → M B) : M B :=
  fun st =>
    match m st with
    | (Ok a, st') => k a st'
    | (Throw e, st') => (Throw e, st')
    | (OutOfFuel, st') => (OutOfFuel, st')
    end.

Notation "x <- m ;; k" := (bind m (fun x => k))
  (at level 100, m at next level, right associativity).
Notation "m ;;; k" := (bind m (fun _ => k))
  (at level 100, right associativity).

(** ** The native Map *)

Module JsMap.

(** [Map.prototype.has]: some record holds the key. *)
Fixpoint has (k : val) (sl : list slot) : bool :=
  match sl with
  | [] => false
  | Some (k', _) :: sl' => if decide (k' = k) then true else has k sl'
  | None :: sl' => has k sl'
  end.

(** [Map.prototype.get]: the value of the record holding the key. *)
Fixpoint get (k : val) (sl : list slot) : val :=
  match sl with
  | [] => VUndef
  | Some (k', v) :: sl' => if decide (k' = k) then v else get k sl'
  | None :: sl' => get k sl'
  end.

(** [Map.prototype.set]: the record holding the key gets the value, in
    place; a key held by no record is appended. *)
Fixpoint set (k v : val) (sl : list slot) : list slot :=
  match sl with
  | [] => [Some (k, v)]
  | Some (k', v') :: sl' =>
      if decide (k' = k) then Some (k', v) :: sl'
      else Some (k', v') :: set k v sl'
  | None :: sl' => None :: set k v sl'
  end.

(** [Map.prototype.delete]: the record holding the key is emptied, the
    list keeps its length. *)
Fixpoint delete (k : val) (sl : list slot) : list slot :=
  match sl with
  | [] => []
  | Some (k', v') :: sl' =>
      if decide (k' = k) then None :: sl'
      else Some (k', v') :: delete k sl'
  | None :: sl' => None :: delete k sl'
  end.

(** The entries an iteration from the start visits. *)
Definition entries (sl : list slot) : list (val * val) := omap id sl.
Definition keys (sl : list slot) : list val := (entries sl).*1.
Definition values (sl : list slot) : list val := (entries sl).*2.
Definition size (sl : list slot) : nat := length (entries sl).

(** The invariant of every Map: no key is held by two records. *)
Definition wf (sl : list slot) : Prop := NoDup (keys sl).

#[global] Arguments entries : simpl never.
#[global] Arguments keys : simpl never.
#[global] Arguments values : simpl never.
#[global] Arguments size : simpl never.

End JsMap.

(** ** Numbers and arrays *)

Module JsNum.

(** An integer or an infinity, the range of ToIntegerOrInfinity. *)
Inductive extint :=
| Int (z : Z)
| PInf
| MInf.

(** Truncation towards zero. *)
Definition trunc (q : Qc) : Z :=
  if bool_decide (0 ≤ q)%Qc then Qfloor q else Qceiling q.

Definition to_integer_or_infinity (n : num) : extint :=
  match n with
  | NaN => Int 0
  | PosInf => PInf
  | NegInf => MInf
  | Fin q => Int (trunc q)
  end.

(** [Number.isInteger] *)
Definition is_integer (a : arg) : bool :=
  match a with
  | NotFn (VNum (Fin q)) => bool_decide (Qden q = 1%positive)
  | _ => false
  end.

(** [a > b] on numbers. *)
Definition gt (a b : num) : bool :=
  match a, b with
  | NaN, _ | _, NaN => false
  | PosInf, PosInf => false
  | PosInf, _ => true
  | NegInf, _ => false
  | Fin _, PosInf => false
  | Fin _, NegInf => true
  | Fin p, Fin q => bool_decide (q < p)%Qc
  end.

(** [a - b] on numbers. *)
Definition sub (a b : num) : num :=
  match a, b with
  | NaN, _ | _, NaN => NaN
  | Fin p, Fin q => Fin (p - q)%Qc
  | Fin _, PosInf => NegInf
  | Fin _, NegInf => PosInf
  | PosInf, PosInf => NaN
  | PosInf, _ => PosInf
  | NegInf, NegInf => NaN
  | NegInf, _ => NegInf
  end.

End JsNum.

Module JsArray.
Import JsNum.

(** [a[i]] for an integral number [i]. *)
Definition index (a : list val) (i : Z) : val :=
  if bool_decide (0 ≤ i)%Z then default VUndef (a !! Z.to_nat i) else VUndef.

(** The clamping of a relative position of [slice] into [0 .. len]. *)
Definition clamp (len : nat) (rel : extint) : nat :=
  match rel with
  | MInf => 0
  | PInf => len
  | Int z =>
      if bool_decide (z < 0)%Z then Z.to_nat (Z.max (Z.of_nat len + z) 0)
      else Z.to_nat (Z.min z (Z.of_nat len))
  end.

(** [Array.prototype.slice(start, end)]; [end] may be omitted. *)
Definition slice (a : list val) (start : num) (end_ : option num) : list val :=
  let len := length a in
  let k := clamp len (to_integer_or_infinity start) in
  let final :=
    match end_ with
    | None => len
    | Some e => clamp len (to_integer_or_infinity e)
    end in
  take (final - k) (drop k a).

(** [Array.prototype.at(index)] *)
Definition at_ (a : list val) (i : num) : val :=
  match to_integer_or_infinity i with
  | Int z =>
      let k := if bool_decide (0 ≤ z)%Z then z else (Z.of_nat (length a) + z)%Z in
      index a k
  | _ => VUndef
  end.

End JsArray.

(** ** Operations on the store *)

Definition get_group (r : ref) : M (list slot) :=
  fun st =>
    match objs st !! r with
    | Some (OGroup sl) => (Ok sl, st)
    | _ => (Throw TypeError, st)
    end.

Definition put_group (r : ref) (sl : list slot) : M unit :=
  fun st => (Ok (), mkStore (<[r := OGroup sl]> (objs st)) (calls st)).

(** [new Group()] *)
Definition new_group : M ref :=
  fun st => (Ok (length (objs st)), mkStore (objs st ++ [OGroup []]) (calls st)).

(** [f(...args)] *)
Definition call (f : callback) (args : list val) : M val :=
  fun st => (Ok (f args (objs st)), mkStore (objs st) (S (calls st))).

Definition map_has (r : ref) (k : val) : M bool :=
  sl <- get_group r;; ret (JsMap.has k sl).

Definition map_get (r : ref) (k : val) : M val :=
  sl <- get_group r;; ret (JsMap.get k sl).

(** [r.set(k, v)], which returns [r]. *)
Definition map_set (r : ref) (k v : val) : M ref :=
  sl <- get_group r;; put_group r (JsMap.set k v sl);;; ret r.

Definition map_delete (r : ref) (k : val) : M unit :=
  sl <- get_group r;; put_group r (JsMap.delete k sl).

(** [[...r.values()]] and [[...r.keys()]] *)
Definition spread_values (r : ref) : M (list val) :=
  sl <- get_group r;; ret (JsMap.values sl).

Definition spread_keys (r : ref) : M (list val) :=
  sl <- get_group r;; ret (JsMap.keys sl).

Definition get_heap : M heap := fun st => (Ok (objs st), st).

(** [a instanceof Group] *)
Definition instanceof_Group (h : heap) (a : arg) : bool :=
  match a with
  | NotFn (VRef r) => match h !! r with Some (OGroup _) => true | _ => false end
  | _ => false
  end.

(** The function, number or integral number an actual parameter is, as the
    guards [typeof a === 'function'], [typeof a === 'number'] and
    [Number.isInteger(a)] find out. *)
Definition as_function (a : arg) : option callback :=
  match a with Fn f => Some f | NotFn _ => None end.

Definition as_number (a : arg) : option num :=
  match a with NotFn (VNum n) => Some n | _ => None end.

Definition as_integer (a : arg) : option num :=
  if JsNum.is_integer a then as_number a else None.

(** How the body of a loop completes: it falls through to the next
    iteration or returns from the enclosing method. *)
Inductive completion (A : Type) :=
| Next
| Return (a : A).
Arguments Next {A}.
Arguments Return {A} a.

(** [for (const [key, value] of r) body], from record [i] on. The iterator
    reads the record list of [r] afresh at every step and skips emptied
    records. *)
Fixpoint for_of {A} (fuel : nat) (r : ref) (i : nat)
    (body : val → val → M (completion A)) : M (completion A) :=
  match fuel with
  | O => out_of_fuel
  | S fuel' =>
      sl <- get_group r;;
      match sl !! i with
      | None => ret Next
      | Some None => for_of fuel' r (S i) body
      | Some (Some (key, value)) =>
          c <- body key value;;
          match c with
          | Return a => ret (Return a)
          | Next => for_of fuel' r (S i) body
          end
      end
  end.

(** [for (const x of l) body] over an array that the body leaves alone. *)
Fixpoint for_each {X} (l : list X) (body : X → M unit) : M unit :=
  match l with
  | [] => ret ()
  | x :: l' => body x;;; for_each l' body
  end.

(** [l.every(p)] and [l.some(p)] on an array, which stop at the first
    element that decides. *)
Fixpoint array_every {X} (l : list X) (p : X → M bool) : M bool :=
  match l with
  | [] => ret true
  | x :: l' => b <- p x;; if b then array_every l' p else ret false
  end.

Fixpoint array_some {X} (l : list X) (p : X → M bool) : M bool :=
  match l with
  | [] => ret false
  | x :: l' => b <- p x;; if b then ret true else array_some l' p
  end.

(** [r.size] *)
Definition map_size (r : ref) : M nat :=
  sl <- get_group r;; ret (JsMap.size sl).

(** The parameter [keys] of [hasAll] and [hasAny]: an array of keys, as
    [Array.isArray] finds out, or anything else. *)
Inductive keys_param :=
| KeyArray (ks : list val)
| NotArray (a : arg).

(** ** The Group class (parameterised variant) *)

(** What [first] and [last] return: one value or an array of values. *)
Inductive picked :=
| Single (v : val)
| Several (vs : list val).

Module Group.

Definition each (fuel : nat) (fn : arg) (this : ref) : M ref :=
  match as_function fn with
  | None => throw (GroupError "fn parameter must be a valid function." (OfArg fn))
  | Some f =>
      for_of (A:=val) fuel this 0 (fun key value =>
        call f [value; key; VRef this];;; ret Next);;;
      ret this
  end.

Definition find (fuel : nat) (fn : arg) (this : ref) : M val :=
  match as_function fn with
  | None => throw (GroupError "fn parameter must be a valid function." (OfArg fn))
  | Some f =>
      c <- for_of fuel this 0 (fun key value =>
             t <- call f [value; key; VRef this];;
             if truthy t then ret (Return value) else ret Next);;
      match c with
      | Return v => ret v
      | Next => ret VUndef
      end
  end.

Definition filter (fuel : nat) (fn : arg) (this : ref) : M ref :=
  match as_function fn with
  | None => throw (GroupError "fn parameter must be a valid function." (OfArg fn))
  | Some f =>
      filteredGroup <- new_group;;
      for_of (A:=val) fuel this 0 (fun key value =>
        t <- call f [value; key; VRef this];;
        if truthy t then map_set filteredGroup key value;;; ret Next
        else ret Next);;;
      ret filteredGroup
  end.

Definition map (fuel : nat) (fn : arg) (this : ref) : M ref :=
  match as_function fn with
  | None => throw (GroupError "fn parameter must be a valid function." (OfArg fn))
  | Some f =>
      mappedMap <- new_group;;
      for_of (A:=val) fuel this 0 (fun key value =>
        mappedValue <- call f [value; key; VRef this];;
        map_set mappedMap key mappedValue;;; ret Next);;;
      ret mappedMap
  end.

Definition findKey (fuel : nat) (fn : arg) (this : ref) : M val :=
  match as_function fn with
  | None => throw (GroupError "fn parameter must be a valid function." (OfArg fn))
  | Some f =>
      c <- for_of fuel this 0 (fun key value =>
             t <- call f [value; key; VRef this];;
             if truthy t then ret (Return key) else ret Next);;
      match c with
      | Return k => ret k
      | Next => ret VUndef
      end
  end.

Definition first (amount : arg) (this : ref) : M picked :=
  values <- spread_values this;;
  match as_number amount with
  | Some n =>
      if JsNum.gt n (num_of_Z 1)
      then ret (Several (JsArray.slice values (num_of_Z 0) (Some n)))
      else ret (Single (JsArray.index values 0))
  | None => ret (Single (JsArray.index values 0))
  end.

Definition last (amount : arg) (this : ref) : M picked :=
  values <- spread_values this;;
  match as_number amount with
  | Some n =>
      if JsNum.gt n (num_of_Z 1)
      then ret (Several (JsArray.slice values
                           (JsNum.sub (num_of_nat (length values)) n) None))
      else ret (Single (JsArray.index values (Z.of_nat (length values) - 1)))
  | None => ret (Single (JsArray.index values (Z.of_nat (length values) - 1)))
  end.

Definition every (fuel : nat) (fn : arg) (this : ref) : M bool :=
  match as_function fn with
  | None => throw (GroupError "fn parameter must be a valid function." (OfArg fn))
  | Some f =>
      c <- for_of fuel this 0 (fun key value =>
             t <- call f [value; key; VRef this];;
             if negb (truthy t) then ret (Return false) else ret Next);;
      match c with
      | Return b => ret b
      | Next => ret true
      end
  end.

Definition some (fuel : nat) (fn : arg) (this : ref) : M bool :=
  match as_function fn with
  | None => throw (GroupError "fn parameter must be a valid function." (OfArg fn))
  | Some f =>
      c <- for_of fuel this 0 (fun key value =>
             t <- call f [value; key; VRef this];;
             if truthy t then ret (Return true) else ret Next);;
      match c with
      | Return b => ret b
      | Next => ret false
      end
  end.

Definition sweep (fuel : nat) (fn : arg) (this : ref) : M ref :=
  match as_function fn with
  | None => throw (GroupError "fn parameter must be a valid function." (OfArg fn))
  | Some f =>
      for_of (A:=val) fuel this 0 (fun key value =>
        t <- call f [value; key; VRef this];;
        if truthy t then map_delete this key;;; ret Next else ret Next);;;
      ret this
  end.

Definition at_ (index : arg) (this : ref) : M val :=
  match as_number index with
  | None => throw (GroupError "Invalid index parameter. Expected a number." (OfArg index))
  | Some n => values <- spread_values this;; ret (JsArray.at_ values n)
  end.

Definition keyAt (index : arg) (this : ref) : M val :=
  match as_number index with
  | None => throw (GroupError "Invalid index parameter. Expected a number." (OfArg index))
  | Some n => keys <- spread_keys this;; ret (JsArray.at_ keys n)
  end.

Definition fallback (key : val) (generator : arg) (this : ref) : M val :=
  match as_function generator with
  | None => throw (GroupError "generator parameter must be a valid function" (OfArg generator))
  | Some g =>
      present <- map_has this key;;
      if present then map_get this key
      else
        v <- call g [key; VRef this];;
        r <- map_set this key v;;
        map_get r key
  end.

(** The rest parameter [groups] is always an array. *)
Definition concact (fuel : nat) (groups : list arg) (this : ref) : M ref :=
  h <- get_heap;;
  if negb (forallb (instanceof_Group h) groups)
  then throw (GroupError "Invalid ...groups parameter. Expected a rest of groups." (OfRest groups))
  else
    for_each groups (fun group =>
      match group with
      | NotFn (VRef g) =>
          for_of (A:=val) fuel g 0 (fun key value =>
            map_set this key value;;; ret Next);;;
          ret ()
      | _ => throw TypeError
      end);;;
    ret this.

(** [new Group(iterable)]: the Map constructor sets every pair of the
    iterable, in order; [null] and [undefined] give the empty group. *)
Definition construct (iterable : option (list (val * val))) : M ref :=
  this <- new_group;;
  match iterable with
  | None => ret this
  | Some pairs =>
      for_each pairs (fun p => map_set this p.1 p.2;;; ret ());;;
      ret this
  end.

Definition hasAll (keys : keys_param) (this : ref) : M bool :=
  match keys with
  | NotArray a =>
      throw (GroupError "Invalid keys parameter. Expected an array of keys." (OfArg a))
  | KeyArray ks => array_every ks (fun key => map_has this key)
  end.

Definition hasAny (keys : keys_param) (this : ref) : M bool :=
  match keys with
  | NotArray a =>
      throw (GroupError "Invalid keys parameter. Expected an array of keys." (OfArg a))
  | KeyArray ks => array_some ks (fun key => map_has this key)
  end.

End Group.

(** ** The second variant of the class ([src/group.ts]): positional access *)

Module Group2.

Definition at_ (index : arg) (this : ref) : M val :=
  match as_integer index with
  | None => throw (GroupError "Invalid index parameter. Expected an integer number." (OfArg index))
  | Some n => values <- spread_values this;; ret (JsArray.at_ values n)
  end.

Definition keyAt (index : arg) (this : ref) : M val :=
  match as_integer index with
  | None => throw (GroupError "Invalid index parameter. Expected an integer number." (OfArg index))
  | Some n => keys <- spread_keys this;; ret (JsArray.at_ keys n)
  end.

(** [first()] and [last()] of this variant take no amount. *)
Definition first (this : ref) : M val :=
  values <- spread_values this;; ret (JsArray.index values 0).

Definition last (this : ref) : M val :=
  values <- spread_values this;;
  size <- map_size this;;
  ret (JsArray.index values (Z.of_nat size - 1)).

End Group2.

(** ** Concrete stores used in examples *)

Definition n_ (z : Z) : val := VNum (num_of_Z z).

(** The group [{a: 1, b: 2, c: 3}] alone in the heap, at reference 0. *)
Definition abc : list slot :=
  [Some (VStr "a", n_ 1); Some (VStr "b", n_ 2); Some (VStr "c", n_ 3)].
Definition st_abc : store := mkStore [OGroup abc] 0.

(** [v => v > 1] *)
Definition gt1 : callback := fun args _ =>
  match args with
  | VNum n :: _ => VBool (JsNum.gt n (num_of_Z 1))
  | _ => VBool false
  end.

(** [1.5] *)
Definition one_and_a_half : val := VNum (Fin (Q2Qc (3 # 2))).

(** A group of six entries. *)
Definition six : list slot :=
  [Some (VStr "a", n_ 1); Some (VStr "b", n_ 2); Some (VStr "c", n_ 3);
   Some (VStr "d", n_ 4); Some (VStr "e", n_ 5); Some (VStr "f", n_ 6)].
Definition st_six : store := mkStore [OGroup six] 0.

(** The groups [{a: 1}], at reference 0, and [{a: 2, b: 3}], at reference 1. *)
Definition st_a_ab : store :=
  mkStore [OGroup [Some (VStr "a", n_ 1)];
           OGroup [Some (VStr "a", n_ 2); Some (VStr "b", n_ 3)]] 0.

(** The group [{b: 2, a: 1}] at reference 0. *)
Definition st_ba : store :=
  mkStore [OGroup [Some (VStr "b", n_ 2); Some (VStr "a", n_ 1)]] 0.

(** [(v, k, g) => k === 'a' || (!g.has('a') && k === 'b')], a predicate
    that writes nothing and consults the group it is shown. *)
Definition peeking : callback := fun args h =>
  match args with
  | [_; k; VRef g] =>
      match h !! g with
      | Some (OGroup sl) =>
          VBool (bool_decide (k = VStr "a")
                 || (negb (JsMap.has (VStr "a") sl) && bool_decide (k = VStr "b")))
      | _ => VBool false
      end
  | _ => VBool false
  end.

(** [() => 4] *)
Definition four : callback := fun _ _ => n_ 4.

(** [v => v] *)
Definition same_value : callback := fun args _ =>
  match args with
  | v :: _ => v
  | [] => VUndef
  end.

(** [2.5] *)
Definition two_and_a_half : Qc := Q2Qc (5 # 2).

(** [(v, k, g) => g === C], for the group [C] at reference 0: a predicate
    that reads no state and writes none, and looks at the group it is
    shown. *)
Definition shown_receiver : callback := fun args _ =>
  match args with
  | [_; _; VRef g] => VBool (bool_decide (g = 0))
  | _ => VBool false
  end.

(** ** Vocabulary of the statements *)

(** The verdict of a callback on an entry of the group [this], in the
    store [st]. *)
Definition verdict (st : store) (this : ref) (f : callback) (e : val * val) : bool :=
  truthy (f [e.2; e.1; VRef this] (objs st)).

(** A predicate on entries: a pure predicate whose verdict is decided by
    the value and the key, whatever the group it is shown and the heap it
    could read. *)
Definition pure_predicate (f : callback) : Prop :=
  ∀ v k t h t' h', f [v; k; t] h = f [v; k; t'] h'.

(** The record list after the records whose entry satisfies [P] have been
    emptied. *)
Definition swept (P : val * val → bool) (sl : list slot) : list slot :=
  (λ s : slot, match s with
               | Some e => if P e then None else Some e
               | None => None
               end) <$> sl.

(** The store after [fallback] has appended to the records [sl] of [this]
    the value that the generator [g] gives to the key [k]. *)
Definition inserted (st : store) (this : ref) (sl : list slot) (g : callback) (k : val) : store :=
  mkStore (<[this := OGroup (sl ++ [Some (k, g [k; VRef this] (objs st))])]> (objs st))
          (S (calls st)).

(** The records that [map] with the callback [f] puts for the entries [es]
    into the new group, which holds [acc] so far and stands last in the
    heap, after the objects [h]. *)
Fixpoint mapped (f : callback) (this : ref) (h : heap) (acc : list slot)
    (es : list (val * val)) : list slot :=
  match es with
  | [] => []
  | (k, v) :: es' =>
      let s := Some (k, f [v; k; VRef this] (h ++ [OGroup acc])) in
      s :: mapped f this h (acc ++ [s]) es'
  end.

(** The records [sl] after every entry of [es] has been set, in order. *)
Definition merge (sl : list slot) (es : list (val * val)) : list slot :=
  foldl (λ acc e, JsMap.set e.1 e.2 acc) sl es.

(** The value under the key [k] in the last entry of [es] that has it. *)
Definition last_bound (k : val) (es : list (val * val)) : option val :=
  foldl (λ o e, if decide (e.1 = k) then Some e.2 else o) None es.

(** The entries, in argument order, of the arguments of [concact] that are
    groups other than the receiver. *)
Definition sources (h : heap) (this : ref) (groups : list arg) : list (val * val) :=
  groups ≫= (λ a,
    match a with
    | NotFn (VRef g) =>
        if decide (g = this) then []
        else match h !! g with
             | Some (OGroup gl) => JsMap.entries gl
             | _ => []
             end
    | _ => []
    end).

(** The fuel [concact] needs: more than the records any argument holds,
    and more than the records the receiver can come to hold. *)
Definition longest (h : heap) (groups : list arg) : nat :=
  max_list ((λ a, match a with
                  | NotFn (VRef g) =>
                      match h !! g with Some (OGroup gl) => length gl | _ => 0 end
                  | _ => 0
                  end) <$> groups).

Definition records_bound (h : heap) (this : ref) (tl : list slot) (groups : list arg) : nat :=
  (length tl + length (sources h this groups)) `max` longest h groups.

(** [(...args) => !f(...args)] *)
Definition negated (f : callback) : callback :=
  fun args h => VBool (negb (truthy (f args h))).

(** The position in [0 .. size) that the integer index [i] of [at] and
    [keyAt] denotes, when it denotes one. *)
Definition position (size : nat) (i : Z) : option nat :=
  if bool_decide (0 ≤ i < Z.of_nat size)%Z then Some (Z.to_nat i)
  else if bool_decide (- Z.of_nat size ≤ i < 0)%Z then Some (Z.to_nat (Z.of_nat size + i))
  else None.

(** Every group of the heap keeps the invariant of the Map. *)
Definition wf_heap (h : heap) : Prop :=
  ∀ r sl, h !! r = Some (OGroup sl) → JsMap.wf sl.

(** The records [sl] with, under every key that [es] has, the value of
    the last entry of [es] with that key. *)
Definition revalued (es : list (val * val)) (sl : list slot) : list slot :=
  (λ s : slot, match s with
               | Some (k, v) => Some (k, default v (last_bound k es))
               | None => None
               end) <$> sl.

(** * Properties *)

(** ** The native Map *)

Section JsMapFacts.
Import JsMap.
Implicit Types (k v : val) (sl pre suf : list slot).

Lemma entries_Some k v sl : entries (Some (k, v) :: sl) = (k, v) :: entries sl.
Proof. done. Qed.

Lemma entries_None sl : entries (None :: sl) = entries sl.
Proof. done. Qed.

Lemma keys_Some k v sl : keys (Some (k, v) :: sl) = k :: keys sl.
Proof. done. Qed.

Lemma keys_None sl : keys (None :: sl) = keys sl.
Proof. done. Qed.

Lemma entries_app sl1 sl2 : entries (sl1 ++ sl2) = entries sl1 ++ entries sl2.
Proof. apply omap_app. Qed.

Lemma keys_app sl1 sl2 : keys (sl1 ++ sl2) = keys sl1 ++ keys sl2.
Proof. unfold keys. by rewrite entries_app, fmap_app. Qed.

Lemma values_app sl1 sl2 : values (sl1 ++ sl2) = values sl1 ++ values sl2.
Proof. unfold values. by rewrite entries_app, fmap_app. Qed.

Lemma has_true k sl : has k sl = true ↔ k ∈ keys sl.
Proof.
  induction sl as [|[[k' v']|] sl IH]; cbn.
  - split; [done | by intros ?%elem_of_nil].
  - rewrite keys_Some, elem_of_cons. case_decide as Hk.
    + subst. split; [by left | done].
    + rewrite IH. split; [by right | by intros [?|?]].
  - exact IH.
Qed.

Lemma has_false k sl : has k sl = false ↔ k ∉ keys sl.
Proof. rewrite <- has_true. by destruct (has k sl). Qed.

Lemma get_set k v sl : get k (set k v sl) = v.
Proof.
  induction sl as [|[[k' v']|] sl IH]; cbn.
  - by rewrite decide_True.
  - case_decide as Hk; cbn.
    + by rewrite decide_True.
    + by rewrite decide_False.
  - exact IH.
Qed.

Lemma has_set k v sl : has k (set k v sl) = true.
Proof.
  induction sl as [|[[k' v']|] sl IH]; cbn.
  - by rewrite decide_True.
  - case_decide as Hk; cbn.
    + by rewrite decide_True.
    + by rewrite decide_False.
  - exact IH.
Qed.

(** Setting a key that no record holds appends a record. *)
Lemma set_absent k v sl : has k sl = false → set k v sl = sl ++ [Some (k, v)].
Proof.
  induction sl as [|[[k' v']|] sl IH]; cbn; intros H.
  - done.
  - case_decide; [done | by rewrite IH].
  - by rewrite IH.
Qed.

(** Setting the key of a record reached after records that do not hold
    it changes that record's value in place. *)
Lemma set_at pre k v0 v suf :
  k ∉ keys pre →
  set k v (pre ++ Some (k, v0) :: suf) = pre ++ Some (k, v) :: suf.
Proof.
  induction pre as [|[[k' v']|] pre IH]; cbn; intros H.
  - by rewrite decide_True.
  - rewrite keys_Some in H. apply not_elem_of_cons in H as [? ?].
    rewrite decide_False by done. by rewrite IH.
  - by rewrite IH.
Qed.

Lemma delete_at pre k v0 suf :
  k ∉ keys pre →
  delete k (pre ++ Some (k, v0) :: suf) = pre ++ None :: suf.
Proof.
  induction pre as [|[[k' v']|] pre IH]; cbn; intros H.
  - by rewrite decide_True.
  - rewrite keys_Some in H. apply not_elem_of_cons in H as [? ?].
    rewrite decide_False by done. by rewrite IH.
  - by rewrite IH.
Qed.

Lemma wf_nil : wf [].
Proof. apply NoDup_nil_2. Qed.

Lemma keys_set_present k v sl : keys (set k v sl) = if has k sl then keys sl else keys sl ++ [k].
Proof.
  induction sl as [|[[k' v']|] sl IH]; cbn.
  - done.
  - case_decide; [done|]. rewrite !keys_Some, IH.
    by destruct (has k sl).
  - exact IH.
Qed.

Lemma wf_set k v sl : wf sl → wf (set k v sl).
Proof.
  unfold wf. rewrite keys_set_present. destruct (has k sl) eqn:E; [done|].
  intros H. apply NoDup_app. split_and!; [done | | apply NoDup_singleton].
  intros x Hx ->%list_elem_of_singleton. by apply has_false in E.
Qed.

Lemma keys_delete_sub k sl : keys (delete k sl) `sublist_of` keys sl.
Proof.
  induction sl as [|[[k' v']|] sl IH]; cbn.
  - done.
  - case_decide; rewrite ?keys_Some, ?keys_None.
    + by apply sublist_cons.
    + by apply sublist_skip.
  - exact IH.
Qed.

Lemma wf_delete k sl : wf sl → wf (delete k sl).
Proof. unfold wf. intros H. eapply sublist_NoDup; [done | apply keys_delete_sub]. Qed.

Lemma length_delete k sl : length (delete k sl) = length sl.
Proof.
  induction sl as [|[[k' v']|] sl IH]; cbn; [done | | by rewrite IH].
  case_decide; cbn; by rewrite ?IH.
Qed.

End JsMapFacts.

(** ** Numbers *)

Section JsNumFacts.
Import JsNum.

Lemma Q2Qc_inject_Z_this (z : Z) : this (Q2Qc (inject_Z z)) = inject_Z z.
Proof.
  cbn. unfold inject_Z. unfold Qred.
  destruct (Z.ggcd z 1) as [g [a b]] eqn:E.
  pose proof (Z.ggcd_correct_divisors z 1) as Hd. rewrite E in Hd.
  pose proof (Z.ggcd_gcd z 1) as Hg. rewrite E in Hg. cbn in Hg.
  rewrite Z.gcd_1_r in Hg. subst g. destruct Hd as [Ha Hb].
  rewrite Z.mul_1_l in Ha, Hb. subst a b. done.
Qed.

Lemma trunc_of_Z (z : Z) : trunc (Q2Qc (inject_Z z)) = z.
Proof.
  unfold trunc, Qfloor, Qceiling, Qfloor. rewrite Q2Qc_inject_Z_this.
  cbn. rewrite !Z.div_1_r, Z.opp_involutive. by case_bool_decide.
Qed.

Lemma gt_of_Z (a b : Z) : gt (num_of_Z a) (num_of_Z b) = bool_decide (b < a)%Z.
Proof.
  cbn -[Q2Qc]. apply bool_decide_ext.
  unfold Qclt. rewrite !Q2Qc_inject_Z_this. by rewrite <- Zlt_Qlt.
Qed.

Lemma sub_of_Z (a b : Z) : sub (num_of_Z a) (num_of_Z b) = num_of_Z (a - b).
Proof.
  unfold num_of_Z. cbn -[Q2Qc Qcminus]. f_equal. apply Qc_is_canon.
  unfold Qcminus, Qcplus, Qcopp, Q2Qc; cbn [this].
  rewrite !Qred_correct. unfold Z.sub.
  by rewrite inject_Z_plus, inject_Z_opp.
Qed.

(** [Number.isInteger] holds of the numbers that are integers. *)
Lemma is_integer_spec (a : arg) :
  is_integer a = true ↔ ∃ z : Z, a = NotFn (VNum (num_of_Z z)).
Proof.
  split.
  - destruct a as [|[| | |[q| | |]| |]]; cbn; try done.
    intros Hd%bool_decide_eq_true. exists (Qnum q). unfold num_of_Z.
    do 3 f_equal. apply Qc_is_canon. rewrite Q2Qc_inject_Z_this.
    destruct q as [[n d] Hc]; cbn in *. by subst.
  - intros [z ->]. unfold num_of_Z. cbn -[Q2Qc]. apply bool_decide_eq_true.
    by rewrite Q2Qc_inject_Z_this.
Qed.

End JsNumFacts.

(** ** Operations on the store *)

Lemma bind_Ok {A B} (m : M A) (k : A → M B) st a st' :
  m st = (Ok a, st') → bind m k st = k a st'.
Proof. unfold bind. by intros ->. Qed.

Section StoreFacts.
Variables (st : store) (r : ref) (sl : list slot).
Hypothesis Hr : objs st !! r = Some (OGroup sl).

Lemma get_group_ok : get_group r st = (Ok sl, st).
Proof using Hr. unfold get_group. by rewrite Hr. Qed.

Lemma spread_values_ok : spread_values r st = (Ok (JsMap.values sl), st).
Proof using Hr. unfold spread_values. by rewrite (bind_Ok _ _ _ _ _ get_group_ok). Qed.

Lemma spread_keys_ok : spread_keys r st = (Ok (JsMap.keys sl), st).
Proof using Hr. unfold spread_keys. by rewrite (bind_Ok _ _ _ _ _ get_group_ok). Qed.

Lemma map_has_ok k : map_has r k st = (Ok (JsMap.has k sl), st).
Proof using Hr. unfold map_has. by rewrite (bind_Ok _ _ _ _ _ get_group_ok). Qed.

Lemma map_get_ok k : map_get r k st = (Ok (JsMap.get k sl), st).
Proof using Hr. unfold map_get. by rewrite (bind_Ok _ _ _ _ _ get_group_ok). Qed.

Lemma map_set_ok k v :
  map_set r k v st
  = (Ok r, mkStore (<[r := OGroup (JsMap.set k v sl)]> (objs st)) (calls st)).
Proof using Hr. unfold map_set. by rewrite (bind_Ok _ _ _ _ _ get_group_ok). Qed.

Lemma map_delete_ok k :
  map_delete r k st
  = (Ok (), mkStore (<[r := OGroup (JsMap.delete k sl)]> (objs st)) (calls st)).
Proof using Hr. unfold map_delete. by rewrite (bind_Ok _ _ _ _ _ get_group_ok). Qed.

Lemma lookup_put sl' : <[r := OGroup sl']> (objs st) !! r = Some (OGroup sl').
Proof using Hr. apply list_lookup_insert_eq. by eapply lookup_lt_Some. Qed.

End StoreFacts.

Lemma call_ok (f : callback) (args : list val) (st : store) :
  call f args st = (Ok (f args (objs st)), mkStore (objs st) (S (calls st))).
Proof. done. Qed.

(** ** Reading a group by position: [first], [last], [at], [keyAt] *)

Lemma typeof_not_number (a : arg) : typeof a ≠ TNumber ↔ as_number a = None.
Proof. destruct a as [|[| | |[]| |]]; cbn; split; done. Qed.

Lemma typeof_not_function (a : arg) : typeof a ≠ TFunction ↔ as_function a = None.
Proof. destruct a as [|[| | |[]| |]]; cbn; split; done. Qed.

Lemma as_integer_None (a : arg) :
  as_integer a = None ↔ ¬ ∃ z : Z, a = NotFn (VNum (num_of_Z z)).
Proof.
  rewrite <- is_integer_spec. unfold as_integer.
  destruct (JsNum.is_integer a) eqn:E; [|split; [by intros _ ? | done]].
  split; [|by intros []].
  destruct a as [|[| | |[]| |]]; done.
Qed.

Section Positional.
Variables (st : store) (this : ref) (sl : list slot).
Hypothesis Hthis : objs st !! this = Some (OGroup sl).

(** X14: [first(n)] for an integer [n > 1]: the first [min(n, size)] values. *)
Lemma first_amount (n : Z) :
  (1 < n)%Z →
  Group.first (NotFn (n_ n)) this st
  = (Ok (Several (take (Z.to_nat n `min` JsMap.size sl) (JsMap.values sl))), st).
Proof using Hthis.
  intros Hn. unfold Group.first, bind. rewrite (spread_values_ok _ _ _ Hthis).
  cbn [as_number n_]. rewrite gt_of_Z, bool_decide_true by done.
  unfold ret, JsArray.slice. do 3 f_equal.
  cbn [JsNum.to_integer_or_infinity num_of_Z]. rewrite !trunc_of_Z.
  cbn [JsArray.clamp]. rewrite !bool_decide_false by lia.
  assert (length (JsMap.values sl) = JsMap.size sl) as ->
    by (unfold JsMap.values, JsMap.size; by rewrite length_fmap).
  replace (Z.to_nat (0 `min` _)) with 0 by lia.
  rewrite drop_0. f_equal. lia.
Qed.

(** [last(n)] for an integer [n > 1]: what [values.slice(length - n)]
    keeps. The start [length - n], when negative, counts from the end. *)
Lemma last_amount (n : Z) :
  (1 < n)%Z →
  let len := Z.of_nat (JsMap.size sl) in
  Group.last (NotFn (n_ n)) this st
  = (Ok (Several (drop (Z.to_nat (if bool_decide (n ≤ len)%Z then len - n
                                  else Z.max (len + (len - n)) 0))
                       (JsMap.values sl))), st).
Proof using Hthis.
  intros Hn len. unfold Group.last, bind. rewrite (spread_values_ok _ _ _ Hthis).
  cbn [as_number n_]. rewrite gt_of_Z, bool_decide_true by done.
  unfold ret, JsArray.slice, num_of_nat. rewrite sub_of_Z. do 3 f_equal.
  cbn [JsNum.to_integer_or_infinity num_of_Z]. rewrite !trunc_of_Z.
  assert (length (JsMap.values sl) = JsMap.size sl) as Hl
    by (unfold JsMap.values, JsMap.size; by rewrite length_fmap).
  rewrite Hl. fold len. cbn [JsArray.clamp].
  rewrite take_ge by (rewrite length_drop; lia).
  f_equal. subst len. repeat case_bool_decide; lia.
Qed.

(** Up to the size, [last(n)] is the last [n] values. *)
Lemma last_amount_within (n : Z) :
  (1 < n ≤ Z.of_nat (JsMap.size sl))%Z →
  Group.last (NotFn (n_ n)) this st
  = (Ok (Several (drop (JsMap.size sl - Z.to_nat n) (JsMap.values sl))), st).
Proof using Hthis.
  intros Hn. rewrite last_amount by lia. cbn zeta.
  rewrite bool_decide_true by lia. do 4 f_equal. lia.
Qed.

(** From twice the size on, [last(n)] is all the values. *)
Lemma last_amount_twice (n : Z) :
  (1 < n)%Z → (2 * Z.of_nat (JsMap.size sl) ≤ n)%Z →
  Group.last (NotFn (n_ n)) this st = (Ok (Several (JsMap.values sl)), st).
Proof using Hthis.
  intros Hn H2. rewrite last_amount by lia. cbn zeta.
  case_bool_decide; do 3 f_equal.
  - replace (Z.to_nat _) with 0 by lia. done.
  - replace (Z.to_nat _) with 0 by lia. done.
Qed.

(** In between, [last(n)] is the last [n - size] values only. *)
Lemma last_amount_between (n : Z) :
  (1 < n)%Z → (Z.of_nat (JsMap.size sl) < n < 2 * Z.of_nat (JsMap.size sl))%Z →
  Group.last (NotFn (n_ n)) this st
  = (Ok (Several (drop (2 * JsMap.size sl - Z.to_nat n) (JsMap.values sl))), st).
Proof using Hthis.
  intros Hn H2. rewrite last_amount by lia. cbn zeta.
  rewrite bool_decide_false by lia. do 4 f_equal. lia.
Qed.

(** C9: an amount that is not a number is never looked at: [first] and
    [last] raise nothing and return the single value that the call
    without an argument returns. *)
Theorem first_last_amount_not_number (x : arg) :
  typeof x ≠ TNumber →
  Group.first x this st = (Ok (Single (JsArray.index (JsMap.values sl) 0)), st)
  ∧ Group.first x this st = Group.first (NotFn VUndef) this st
  ∧ Group.last x this st
    = (Ok (Single (JsArray.index (JsMap.values sl)
                     (Z.of_nat (length (JsMap.values sl)) - 1))), st)
  ∧ Group.last x this st = Group.last (NotFn VUndef) this st.
Proof using Hthis.
  intros Hx%typeof_not_number.
  unfold Group.first, Group.last, bind. rewrite (spread_values_ok _ _ _ Hthis), Hx. done.
Qed.

(** X17: The guard of the second variant: whatever is not an integer is
    refused by [at] and [keyAt], and the group is left as it was. *)
Lemma at_not_integer_throws2 (x : arg) :
  (¬ ∃ z : Z, x = NotFn (VNum (num_of_Z z))) →
  Group2.at_ x this st
  = (Throw (GroupError "Invalid index parameter. Expected an integer number." (OfArg x)), st)
  ∧ Group2.keyAt x this st
    = (Throw (GroupError "Invalid index parameter. Expected an integer number." (OfArg x)), st).
Proof. intros Hx%as_integer_None. unfold Group2.at_, Group2.keyAt. by rewrite Hx. Qed.

(** The guard of the parameterised variant refuses what is not a number. *)
Lemma at_not_number_throws (x : arg) :
  typeof x ≠ TNumber →
  Group.at_ x this st
  = (Throw (GroupError "Invalid index parameter. Expected a number." (OfArg x)), st)
  ∧ Group.keyAt x this st
    = (Throw (GroupError "Invalid index parameter. Expected a number." (OfArg x)), st).
Proof. intros Hx%typeof_not_number. unfold Group.at_, Group.keyAt. by rewrite Hx. Qed.

(** It lets every number through: a number that is not an integer is
    truncated towards zero and used as the index. *)
Lemma at_number_accepted (q : Qc) :
  Group.at_ (NotFn (VNum (Fin q))) this st
  = (Ok (JsArray.at_ (JsMap.values sl) (num_of_Z (JsNum.trunc q))), st)
  ∧ Group.keyAt (NotFn (VNum (Fin q))) this st
    = (Ok (JsArray.at_ (JsMap.keys sl) (num_of_Z (JsNum.trunc q))), st).
Proof using Hthis.
  unfold Group.at_, Group.keyAt, bind. cbn [as_number].
  rewrite (spread_values_ok _ _ _ Hthis), (spread_keys_ok _ _ _ Hthis). unfold ret, JsArray.at_.
  cbn [JsNum.to_integer_or_infinity num_of_Z]. by rewrite trunc_of_Z.
Qed.

End Positional.

Lemma at_of_nat (l : list val) (i : nat) :
  JsArray.at_ l (num_of_nat i) = default VUndef (l !! i).
Proof.
  unfold JsArray.at_, num_of_nat, num_of_Z, JsArray.index.
  cbn [JsNum.to_integer_or_infinity]. rewrite trunc_of_Z.
  rewrite (bool_decide_true (0 ≤ Z.of_nat i)%Z) by lia.
  rewrite bool_decide_true by lia. by rewrite Nat2Z.id.
Qed.

Lemma length_keys (sl : list slot) : length (JsMap.keys sl) = JsMap.size sl.
Proof. unfold JsMap.keys, JsMap.size. by rewrite length_fmap. Qed.

Lemma length_values (sl : list slot) : length (JsMap.values sl) = JsMap.size sl.
Proof. unfold JsMap.values, JsMap.size. by rewrite length_fmap. Qed.

(** ** Guards on callbacks *)

(** C6: every operation that takes a callback or a generator refuses an
    argument that is not a function with a [GroupError] carrying that
    argument, before it reads or writes anything: the store it leaves is
    the store it found. *)
Theorem not_callable_throws (fuel : nat) (fn : arg) (key : val) (this : ref) (st : store) :
  typeof fn ≠ TFunction →
  let refused {A} : outcome A * store :=
    (Throw (GroupError "fn parameter must be a valid function." (OfArg fn)), st) in
  Group.each fuel fn this st = refused
  ∧ Group.find fuel fn this st = refused
  ∧ Group.filter fuel fn this st = refused
  ∧ Group.map fuel fn this st = refused
  ∧ Group.findKey fuel fn this st = refused
  ∧ Group.every fuel fn this st = refused
  ∧ Group.some fuel fn this st = refused
  ∧ Group.sweep fuel fn this st = refused
  ∧ Group.fallback key fn this st
    = (Throw (GroupError "generator parameter must be a valid function" (OfArg fn)), st).
Proof.
  intros Hfn%typeof_not_function refused.
  unfold Group.each, Group.find, Group.filter, Group.map, Group.findKey,
    Group.every, Group.some, Group.sweep, Group.fallback.
  rewrite Hfn. by repeat split.
Qed.

(** ** [fallback] *)

Section Fallback.
Variables (st : store) (this : ref) (sl : list slot).
Hypothesis Hthis : objs st !! this = Some (OGroup sl).
Variables (g : callback) (k : val).

Local Abbreviation st_ins := (inserted st this sl g k).

Lemma fallback_present (g' : callback) :
  JsMap.has k sl = true →
  Group.fallback k (Fn g') this st = (Ok (JsMap.get k sl), st).
Proof using Hthis.
  intros Hk. unfold Group.fallback; cbn [as_function].
  rewrite (bind_Ok _ _ _ _ _ (map_has_ok _ _ _ Hthis k)), Hk.
  apply (map_get_ok _ _ _ Hthis).
Qed.

Lemma inserted_lookup :
  objs st_ins !! this = Some (OGroup (sl ++ [Some (k, g [k; VRef this] (objs st))])).
Proof using Hthis. apply (lookup_put _ _ _ Hthis). Qed.

Lemma fallback_absent :
  JsMap.has k sl = false →
  Group.fallback k (Fn g) this st = (Ok (g [k; VRef this] (objs st)), st_ins).
Proof using Hthis.
  intros Hk. unfold Group.fallback; cbn [as_function].
  rewrite (bind_Ok _ _ _ _ _ (map_has_ok _ _ _ Hthis k)), Hk.
  rewrite (bind_Ok _ _ _ _ _ (call_ok _ _ _)).
  assert (objs (mkStore (objs st) (S (calls st))) !! this = Some (OGroup sl)) as Hthis'
    by done.
  rewrite (bind_Ok _ _ _ _ _ (map_set_ok _ _ _ Hthis' k _)).
  cbn [objs calls]. rewrite set_absent by done. fold st_ins.
  rewrite (map_get_ok _ _ _ inserted_lookup).
  rewrite <- (set_absent k _ sl) by done. by rewrite get_set.
Qed.

(** C4: [fallback] on a key that is present returns its value and leaves
    the store, invocation count included, as it was; on a key that is
    absent it invokes the generator once, on the key and the group,
    appends the produced value under the key and returns it. Called
    again on the same key, with any generator, it returns the same value
    and invokes nothing. *)
Theorem fallback_get_or_create :
  ∃ v st1,
    Group.fallback k (Fn g) this st = (Ok v, st1)
    ∧ (JsMap.has k sl = true → v = JsMap.get k sl ∧ st1 = st)
    ∧ (JsMap.has k sl = false →
         v = g [k; VRef this] (objs st)
         ∧ calls st1 = S (calls st)
         ∧ objs st1 = <[this := OGroup (JsMap.set k v sl)]> (objs st))
    ∧ ∀ g' : callback, Group.fallback k (Fn g') this st1 = (Ok v, st1).
Proof using Hthis.
  destruct (JsMap.has k sl) eqn:Hk.
  - exists (JsMap.get k sl), st. rewrite fallback_present by done.
    split_and!; [done | done | done |].
    intros g'. by apply fallback_present.
  - exists (g [k; VRef this] (objs st)), st_ins.
    rewrite fallback_absent by done.
    split_and!; [done | done | |].
    + intros _. split_and!; [done | done |]. cbn. by rewrite set_absent.
    + intros g'. unfold Group.fallback; cbn [as_function].
      rewrite (bind_Ok _ _ _ _ _ (map_has_ok _ _ _ inserted_lookup k)).
      rewrite <- (set_absent k _ sl), has_set by done.
      rewrite (map_get_ok _ _ _ inserted_lookup).
      rewrite <- (set_absent k _ sl) by done. by rewrite get_set.
Qed.

(** C10: on an absent key, [fallback] puts the new entry, the key with
    the generator's value on the key and the group, last in iteration
    order: [keyAt(size - 1)] is the key, and [at] and [keyAt] answer as
    before at every position that existed. *)
Theorem fallback_appends :
  JsMap.has k sl = false →
  ∃ st1 sl1,
    Group.fallback k (Fn g) this st = (Ok (g [k; VRef this] (objs st)), st1)
    ∧ objs st1 !! this = Some (OGroup sl1)
    ∧ JsMap.entries sl1 = JsMap.entries sl ++ [(k, g [k; VRef this] (objs st))]
    ∧ Group.keyAt (NotFn (n_ (Z.of_nat (JsMap.size sl1) - 1))) this st1 = (Ok k, st1)
    ∧ ∀ i : nat, i < JsMap.size sl →
        (Group.keyAt (NotFn (n_ (Z.of_nat i))) this st1).1
        = (Group.keyAt (NotFn (n_ (Z.of_nat i))) this st).1
        ∧ (Group.at_ (NotFn (n_ (Z.of_nat i))) this st1).1
          = (Group.at_ (NotFn (n_ (Z.of_nat i))) this st).1.
Proof using Hthis.
  intros Hk. eexists st_ins, _. rewrite fallback_absent by done.
  split_and!; [done | apply inserted_lookup | by rewrite entries_app | |].
  - unfold Group.keyAt, bind, n_. cbn [as_number].
    rewrite (spread_keys_ok _ _ _ inserted_lookup). unfold ret. f_equal.
    replace (Z.of_nat _ - 1)%Z with (Z.of_nat (JsMap.size sl)).
    2:{ unfold JsMap.size. rewrite entries_app, length_app.
        change (length (JsMap.entries [_])) with 1. lia. }
    change (num_of_Z (Z.of_nat ?n)) with (num_of_nat n). rewrite at_of_nat.
    rewrite keys_app. rewrite lookup_app_r by (rewrite length_keys; lia).
    by rewrite length_keys, Nat.sub_diag.
  - intros i Hi. unfold Group.keyAt, Group.at_, bind, n_. cbn [as_number].
    rewrite (spread_keys_ok _ _ _ inserted_lookup), (spread_keys_ok _ _ _ Hthis).
    rewrite (spread_values_ok _ _ _ inserted_lookup), (spread_values_ok _ _ _ Hthis).
    change (num_of_Z (Z.of_nat ?n)) with (num_of_nat n). cbn [ret fst].
    rewrite !at_of_nat, keys_app, values_app.
    rewrite !lookup_app_l by (rewrite ?length_keys, ?length_values; lia). done.
Qed.

End Fallback.

(** ** The loop rule for [for ... of] over a group *)

Section ForOf.
Context {A : Type}.
Variables (r : ref) (body : val → val → M (completion A)).

(** [L] is the length of the record list of [r], which the loop keeps;
    [Inv i] holds of the store when the iterator stands before record
    [i]; [Post] holds of the completion and the store at the end. *)
Variables (L : nat) (Inv : nat → store → Prop)
          (Post : completion A → store → Prop).

Hypothesis Inv_group : ∀ i st, Inv i st →
  ∃ sl, objs st !! r = Some (OGroup sl) ∧ length sl = L.
Hypothesis Inv_skip : ∀ i st sl, Inv i st →
  objs st !! r = Some (OGroup sl) → sl !! i = Some None → Inv (S i) st.
Hypothesis Inv_body : ∀ i st sl key value, Inv i st →
  objs st !! r = Some (OGroup sl) → sl !! i = Some (Some (key, value)) →
  ∃ c st', body key value st = (Ok c, st')
           ∧ match c with
             | Next => Inv (S i) st'
             | Return a => Post (Return a) st'
             end.
Hypothesis Inv_exit : ∀ st, Inv L st → Post Next st.

(** With more fuel than records left, the loop completes. *)
Lemma for_of_total (fuel i : nat) (st : store) :
  i ≤ L → L - i < fuel → Inv i st →
  ∃ c st', for_of fuel r i body st = (Ok c, st') ∧ Post c st'.
Proof using Inv_group Inv_skip Inv_body Inv_exit.
  revert i st. induction fuel as [|fuel IH]; intros i st Hi Hfuel HI; [lia|].
  destruct (Inv_group _ _ HI) as (sl & Hsl & Hlen).
  cbn [for_of]. rewrite (bind_Ok _ _ _ _ _ (get_group_ok _ _ _ Hsl)).
  destruct (sl !! i) as [[[key value]|]|] eqn:Hi'.
  - apply lookup_lt_Some in Hi' as Hlt.
    destruct (Inv_body _ _ _ _ _ HI Hsl Hi') as (c & st' & Hb & Hc).
    rewrite (bind_Ok _ _ _ _ _ Hb). destruct c as [|a].
    + apply IH; [lia | lia | done].
    + by exists (Return a), st'.
  - apply lookup_lt_Some in Hi' as Hlt.
    apply IH; [lia | lia | by eapply Inv_skip].
  - apply lookup_ge_None in Hi'. assert (i = L) as -> by lia.
    exists Next, st. split; [done | by apply Inv_exit].
Qed.

End ForOf.

(** The records before, at and after the iterator. *)
Lemma entries_take_S (sl : list slot) (i : nat) (s : slot) :
  sl !! i = Some s →
  JsMap.entries (take (S i) sl)
  = JsMap.entries (take i sl) ++ match s with Some e => [e] | None => [] end.
Proof.
  intros Hi. rewrite (take_S_r _ _ _ Hi), entries_app. by destruct s.
Qed.

Lemma entries_split (sl : list slot) (i : nat) (s : slot) :
  sl !! i = Some s →
  JsMap.entries sl
  = JsMap.entries (take i sl) ++ match s with Some e => [e] | None => [] end
    ++ JsMap.entries (drop (S i) sl).
Proof.
  intros Hi. rewrite <- (take_drop_middle _ _ _ Hi) at 1.
  rewrite entries_app. f_equal. by destruct s as [[]|].
Qed.

(** ** [every] and [some] *)

Section Quantifiers.
Variables (st : store) (this : ref) (sl : list slot).
Hypothesis Hthis : objs st !! this = Some (OGroup sl).
Variable f : callback.

Local Abbreviation P := (verdict st this f).

Lemma some_spec (fuel : nat) :
  length sl < fuel →
  ∃ st', Group.some fuel (Fn f) this st
         = (Ok (existsb P (JsMap.entries sl)), st')
         ∧ objs st' = objs st ∧ calls st ≤ calls st'.
Proof using Hthis.
  intros Hfuel. unfold Group.some; cbn [as_function].
  edestruct (for_of_total (A:=bool) this
    (fun key value => t <- call f [value; key; VRef this];;
                      if truthy t then ret (Return true) else ret Next)
    (length sl)
    (fun i st' => objs st' = objs st ∧ calls st ≤ calls st'
                  ∧ existsb P (JsMap.entries (take i sl)) = false)
    (fun c st' => objs st' = objs st ∧ calls st ≤ calls st'
                  ∧ c = if existsb P (JsMap.entries sl)
                        then Return true else Next)
    ) with (i := 0) (st := st) (fuel := fuel) as (c & st' & Hrun & Ho & Hc & ->).
  - intros i st' (Ho & _). exists sl. by rewrite Ho.
  - intros i st' sl' (Ho & Hc & Hn) Hsl' Hi. rewrite Ho, Hthis in Hsl'.
    simplify_eq. split_and!; [done | done |].
    by rewrite (entries_take_S _ _ _ Hi), app_nil_r.
  - intros i st' sl' key value (Ho & Hc & Hn) Hsl' Hi. rewrite Ho, Hthis in Hsl'.
    simplify_eq. rewrite (bind_Ok _ _ _ _ _ (call_ok _ _ _)). rewrite Ho.
    change (truthy (f [value; key; VRef this] (objs st))) with (P (key, value)).
    destruct (P (key, value)) eqn:Hv; eexists _, _; (split; [done|]); cbn.
    + split_and!; [done | lia |].
      rewrite (entries_split _ _ _ Hi), !existsb_app. cbn. rewrite Hv.
      by rewrite orb_true_r.
    + split_and!; [done | lia |].
      rewrite (entries_take_S _ _ _ Hi), existsb_app. cbn. by rewrite Hn, Hv.
  - intros st' (Ho & Hc & Hn). rewrite firstn_all in Hn. by rewrite Hn.
  - lia.
  - lia.
  - split_and!; [done | done |]. by rewrite take_0.
  - rewrite (bind_Ok _ _ _ _ _ Hrun). exists st'.
    by destruct (existsb P (JsMap.entries sl)).
Qed.

Lemma every_spec (fuel : nat) :
  length sl < fuel →
  ∃ st', Group.every fuel (Fn f) this st
         = (Ok (forallb P (JsMap.entries sl)), st')
         ∧ objs st' = objs st ∧ calls st ≤ calls st'.
Proof using Hthis.
  intros Hfuel. unfold Group.every; cbn [as_function].
  edestruct (for_of_total (A:=bool) this
    (fun key value => t <- call f [value; key; VRef this];;
                      if negb (truthy t) then ret (Return false) else ret Next)
    (length sl)
    (fun i st' => objs st' = objs st ∧ calls st ≤ calls st'
                  ∧ forallb P (JsMap.entries (take i sl)) = true)
    (fun c st' => objs st' = objs st ∧ calls st ≤ calls st'
                  ∧ c = if forallb P (JsMap.entries sl)
                        then Next else Return false)
    ) with (i := 0) (st := st) (fuel := fuel) as (c & st' & Hrun & Ho & Hc & ->).
  - intros i st' (Ho & _). exists sl. by rewrite Ho.
  - intros i st' sl' (Ho & Hc & Hn) Hsl' Hi. rewrite Ho, Hthis in Hsl'.
    simplify_eq. split_and!; [done | done |].
    by rewrite (entries_take_S _ _ _ Hi), app_nil_r.
  - intros i st' sl' key value (Ho & Hc & Hn) Hsl' Hi. rewrite Ho, Hthis in Hsl'.
    simplify_eq. rewrite (bind_Ok _ _ _ _ _ (call_ok _ _ _)). rewrite Ho.
    change (truthy (f [value; key; VRef this] (objs st))) with (P (key, value)).
    destruct (P (key, value)) eqn:Hv; eexists _, _; (split; [done|]); cbn.
    + split_and!; [done | lia |].
      rewrite (entries_take_S _ _ _ Hi), forallb_app. cbn. by rewrite Hn, Hv.
    + split_and!; [done | lia |].
      rewrite (entries_split _ _ _ Hi), !forallb_app. cbn. rewrite Hv.
      by rewrite andb_false_r.
  - intros st' (Ho & Hc & Hn). rewrite firstn_all in Hn. by rewrite Hn.
  - lia.
  - lia.
  - split_and!; [done | done |]. by rewrite take_0.
  - rewrite (bind_Ok _ _ _ _ _ Hrun). exists st'.
    by destruct (forallb P (JsMap.entries sl)).
Qed.

End Quantifiers.

(** ** [sweep] *)

Section SweptFacts.
Variable P : val * val → bool.

Lemma length_swept sl : length (swept P sl) = length sl.
Proof. unfold swept. by rewrite length_fmap. Qed.

Lemma swept_app sl1 sl2 : swept P (sl1 ++ sl2) = swept P sl1 ++ swept P sl2.
Proof. unfold swept. by rewrite fmap_app. Qed.

Lemma entries_swept sl :
  JsMap.entries (swept P sl) = filter (λ e, P e = false) (JsMap.entries sl).
Proof.
  induction sl as [|[e|] sl IH]; [done | | done].
  change (swept P (Some e :: sl))
    with ((if P e then None else Some e) :: swept P sl).
  change (JsMap.entries (Some e :: sl)) with (e :: JsMap.entries sl).
  rewrite filter_cons. destruct (P e) eqn:E.
  - rewrite decide_False by done. by rewrite entries_None.
  - rewrite decide_True by done. destruct e. by rewrite entries_Some, IH.
Qed.

Lemma keys_swept_subseteq sl : JsMap.keys (swept P sl) ⊆ JsMap.keys sl.
Proof.
  unfold JsMap.keys. rewrite entries_swept. intros k Hk.
  apply list_elem_of_fmap in Hk as (e & -> & He).
  apply list_elem_of_filter in He as [_ He].
  apply list_elem_of_fmap. by exists e.
Qed.

(** Emptying records keeps the invariant of the Map. *)
Lemma wf_swept sl : JsMap.wf sl → JsMap.wf (swept P sl).
Proof.
  unfold JsMap.wf, JsMap.keys. rewrite entries_swept. intros Hwf.
  eapply sublist_NoDup; [exact Hwf|]. apply fmap_sublist, sublist_filter.
Qed.


Lemma forallb_filter_true (l : list (val * val)) :
  forallb P (filter (λ e, P e = true) l) = true.
Proof.
  induction l as [|e l IH]; [done|]. rewrite filter_cons.
  case_decide as He; [cbn; by rewrite He | done].
Qed.


End SweptFacts.


Lemma forallb_pointwise {X} (p q : X → bool) (l : list X) :
  (∀ x, p x = q x) → forallb p l = forallb q l.
Proof. intros H. induction l as [|x l IH]; cbn; [done | by rewrite H, IH]. Qed.

(** Record [i] of a list whose first [i] records were rewritten. *)
Lemma lookup_rewritten_prefix (pre sl : list slot) (i : nat) :
  length pre = i → (pre ++ drop i sl) !! i = sl !! i.
Proof.
  intros <-. rewrite lookup_app_r by lia. rewrite Nat.sub_diag, lookup_drop.
  by rewrite Nat.add_0_r.
Qed.

(** In a well-formed list, the key of record [i] is held by no earlier
    record. *)
Lemma wf_key_fresh (sl : list slot) (i : nat) (k v : val) :
  JsMap.wf sl → sl !! i = Some (Some (k, v)) → k ∉ JsMap.keys (take i sl).
Proof.
  intros Hwf Hi Hk. unfold JsMap.wf in Hwf.
  rewrite <- (take_drop_middle _ _ _ Hi), keys_app, keys_Some in Hwf.
  apply NoDup_app in Hwf as (_ & Hdisj & _).
  apply (Hdisj k Hk). apply elem_of_cons. by left.
Qed.

Section Sweep.
Variables (st : store) (this : ref) (sl : list slot).
Hypothesis Hthis : objs st !! this = Some (OGroup sl).
Hypothesis Hwf : JsMap.wf sl.
Variable f : callback.
Hypothesis Hpure : pure_predicate f.

Local Abbreviation P := (verdict st this f).

Lemma sweep_spec (fuel : nat) :
  length sl < fuel →
  ∃ st1, Group.sweep fuel (Fn f) this st = (Ok this, st1)
         ∧ objs st1 = <[this := OGroup (swept P sl)]> (objs st)
         ∧ calls st ≤ calls st1.
Proof using Hthis Hwf Hpure.
  intros Hfuel. unfold Group.sweep; cbn [as_function].
  edestruct (for_of_total (A:=val) this
    (fun key value => t <- call f [value; key; VRef this];;
                      if truthy t then map_delete this key;;; ret Next else ret Next)
    (length sl)
    (fun i st' => objs st' = <[this := OGroup (swept P (take i sl) ++ drop i sl)]> (objs st)
                  ∧ calls st ≤ calls st')
    (fun c st' => c = Next
                  ∧ objs st' = <[this := OGroup (swept P sl)]> (objs st)
                  ∧ calls st ≤ calls st')
    ) with (i := 0) (st := st) (fuel := fuel) as (c & st1 & Hrun & -> & Ho & Hc).
  - intros i st' (Ho & _). eexists. rewrite Ho. split; [by eapply lookup_put|].
    rewrite length_app, length_swept, length_take, length_drop. lia.
  - intros i st' sl' (Ho & Hc) Hsl' Hi. rewrite Ho, (lookup_put _ _ _ Hthis) in Hsl'.
    simplify_eq. apply lookup_lt_Some in Hi as Hlt.
    rewrite length_app, length_swept, length_take, length_drop in Hlt.
    rewrite lookup_rewritten_prefix in Hi
      by (rewrite length_swept, length_take; lia).
    split; [|done]. rewrite Ho. do 2 f_equal.
    rewrite (take_S_r _ _ _ Hi), swept_app, <- app_assoc.
    by rewrite (drop_S _ _ _ Hi).
  - intros i st' sl' key value (Ho & Hc) Hsl' Hi.
    rewrite Ho, (lookup_put _ _ _ Hthis) in Hsl'.
    simplify_eq. apply lookup_lt_Some in Hi as Hlt.
    rewrite length_app, length_swept, length_take, length_drop in Hlt.
    rewrite lookup_rewritten_prefix in Hi
      by (rewrite length_swept, length_take; lia).
    rewrite (bind_Ok _ _ _ _ _ (call_ok _ _ _)).
    rewrite (Hpure _ _ _ (objs st') (VRef this) (objs st)).
    change (truthy _) with (P (key, value)).
    assert (swept P (take (S i) sl) ++ drop (S i) sl
            = swept P (take i sl)
              ++ (if P (key, value) then None else Some (key, value))
                 :: drop (S i) sl) as Hnext.
    { by rewrite (take_S_r _ _ _ Hi), swept_app, <- app_assoc. }
    destruct (P (key, value)) eqn:Hv.
    + assert (objs (mkStore (objs st') (S (calls st'))) !! this
              = Some (OGroup (swept P (take i sl) ++ drop i sl))) as Hcur.
      { cbn. rewrite Ho. by eapply lookup_put. }
      rewrite (bind_Ok _ _ _ _ _ (map_delete_ok _ _ _ Hcur key)).
      eexists _, _. split; [done|]. cbn [objs calls]. split; [|lia].
      rewrite Ho, list_insert_insert_eq, Hnext. do 2 f_equal.
      rewrite (drop_S _ _ _ Hi). apply delete_at.
      intros Hk%keys_swept_subseteq. by eapply wf_key_fresh.
    + eexists _, _. split; [done|]. cbn [objs calls]. split; [|lia].
      rewrite Ho, Hnext. by rewrite (drop_S _ _ _ Hi).
  - intros st' (Ho & Hc). split_and!; [done | | done].
    by rewrite Ho, firstn_all, drop_all, app_nil_r.
  - lia.
  - lia.
  - split; [|done]. rewrite take_0, drop_0. cbn.
    symmetry. by apply list_insert_id.
  - rewrite (bind_Ok _ _ _ _ _ Hrun). by exists st1.
Qed.


End Sweep.

Lemma size_le_length (sl : list slot) : JsMap.size sl ≤ length sl.
Proof.
  unfold JsMap.size.
  induction sl as [|[[k v]|] sl IH]; rewrite ?entries_Some, ?entries_None;
    cbn [length]; [done | lia | lia].
Qed.

(** ** A group allocated last in the heap *)

Lemma lookup_last_object (h : heap) (o : obj) : (h ++ [o]) !! length h = Some o.
Proof. by rewrite lookup_app_r, Nat.sub_diag by lia. Qed.

Lemma insert_last_object (h : heap) (o o' : obj) :
  <[length h := o']> (h ++ [o]) = h ++ [o'].
Proof. by rewrite insert_app_r_alt, Nat.sub_diag by lia. Qed.

Lemma entries_fmap_Some (es : list (val * val)) : JsMap.entries (Some <$> es) = es.
Proof.
  induction es as [|[k v] es IH]; [done|].
  by rewrite fmap_cons, entries_Some, IH.
Qed.

(** ** [filter] *)

Section Filter.
Variables (st : store) (this : ref) (sl : list slot).
Hypothesis Hthis : objs st !! this = Some (OGroup sl).
Hypothesis Hwf : JsMap.wf sl.
Variable f : callback.
Hypothesis Hpure : pure_predicate f.

Local Abbreviation P := (verdict st this f).
Local Abbreviation kept := (λ sl', Some <$> filter (λ e, P e = true) (JsMap.entries sl')).

Lemma filter_spec (fuel : nat) :
  length sl < fuel →
  ∃ st1, Group.filter fuel (Fn f) this st = (Ok (length (objs st)), st1)
         ∧ objs st1 = objs st ++ [OGroup (kept sl)]
         ∧ calls st ≤ calls st1.
Proof using Hthis Hwf Hpure.
  intros Hfuel. unfold Group.filter; cbn [as_function].
  assert (new_group st = (Ok (length (objs st)),
                          mkStore (objs st ++ [OGroup []]) (calls st))) as Hnew by done.
  rewrite (bind_Ok _ _ _ _ _ Hnew).
  pose proof (lookup_lt_Some _ _ _ Hthis) as Hlt.
  edestruct (for_of_total (A:=val) this
    (fun key value => t <- call f [value; key; VRef this];;
                      if truthy t then map_set (length (objs st)) key value;;; ret Next
                      else ret Next)
    (length sl)
    (fun i st' => objs st' = objs st ++ [OGroup (kept (take i sl))]
                  ∧ calls st ≤ calls st')
    (fun c st' => c = Next ∧ objs st' = objs st ++ [OGroup (kept sl)]
                  ∧ calls st ≤ calls st')
    ) with (i := 0) (fuel := fuel)
           (st := mkStore (objs st ++ [OGroup []]) (calls st))
    as (c & st1 & Hrun & -> & Ho & Hc).
  - intros i st' (Ho & _). exists sl. by rewrite Ho, lookup_app_l.
  - intros i st' sl' (Ho & Hc) Hsl' Hi. rewrite Ho, lookup_app_l, Hthis in Hsl' by done.
    injection Hsl' as <-. split; [|done].
    by rewrite Ho, (entries_take_S _ _ _ Hi), app_nil_r.
  - intros i st' sl' key value (Ho & Hc) Hsl' Hi.
    rewrite Ho, lookup_app_l, Hthis in Hsl' by done. injection Hsl' as <-.
    rewrite (bind_Ok _ _ _ _ _ (call_ok _ _ _)).
    rewrite (Hpure _ _ _ (objs st') (VRef this) (objs st)).
    change (truthy _) with (P (key, value)).
    rewrite (entries_take_S _ _ _ Hi), filter_app, fmap_app, filter_cons, filter_nil.
    destruct (P (key, value)) eqn:Hv.
    + rewrite decide_True by done.
      assert (objs (mkStore (objs st') (S (calls st'))) !! length (objs st)
              = Some (OGroup (kept (take i sl)))) as Hcur.
      { cbn [objs]. rewrite Ho. apply lookup_last_object. }
      rewrite (bind_Ok _ _ _ _ _ (map_set_ok _ _ _ Hcur key value)).
      eexists _, _. split; [done|]. cbn [objs calls]. split; [|lia].
      rewrite Ho, insert_last_object. do 3 f_equal. apply set_absent.
      apply has_false. unfold JsMap.keys. rewrite entries_fmap_Some.
      intros Hk. apply (wf_key_fresh _ _ _ _ Hwf Hi).
      apply list_elem_of_fmap in Hk as (e & -> & He).
      apply list_elem_of_filter in He as [_ He].
      apply list_elem_of_fmap. by exists e.
    + rewrite decide_False by done.
      eexists _, _. split; [done|]. cbn [objs calls]. split; [|lia].
      by rewrite Ho, fmap_nil, app_nil_r.
  - intros st' (Ho & Hc). by rewrite firstn_all in Ho.
  - lia.
  - lia.
  - by split.
  - rewrite (bind_Ok _ _ _ _ _ Hrun). by exists st1.
Qed.

(** C7, as amended: [filter] with a predicate whose verdict is decided by
    the value and the key alone returns a group that is new in the heap
    and holds, in their order, the entries of the receiver that satisfy
    the predicate; [every] with that predicate answers true on it. *)
Theorem filter_every (fuel : nat) :
  length sl < fuel →
  ∃ r st1 sl1 st2,
    Group.filter fuel (Fn f) this st = (Ok r, st1)
    ∧ objs st !! r = None
    ∧ objs st1 !! r = Some (OGroup sl1)
    ∧ JsMap.entries sl1 = filter (λ e, P e = true) (JsMap.entries sl)
    ∧ Group.every fuel (Fn f) r st1 = (Ok true, st2).
Proof using Hthis Hwf Hpure.
  intros Hfuel. destruct (filter_spec fuel Hfuel) as (st1 & Hrun & Ho & _).
  assert (objs st1 !! length (objs st) = Some (OGroup (kept sl))) as Hcur
    by (rewrite Ho; apply lookup_last_object).
  destruct (every_spec st1 _ _ Hcur f fuel) as (st2 & Hevery & _).
  { rewrite length_fmap.
    pose proof (length_filter (λ e, P e = true) (JsMap.entries sl)).
    pose proof (size_le_length sl). unfold JsMap.size in *. lia. }
  exists (length (objs st)), st1, (kept sl), st2.
  split_and!; [done | by apply lookup_ge_None | done | apply entries_fmap_Some |].
  rewrite Hevery. do 2 f_equal. rewrite entries_fmap_Some.
  rewrite (forallb_pointwise _ P); [apply forallb_filter_true|].
  intros [k v]. apply (f_equal truthy), Hpure.
Qed.

End Filter.

(** ** [map] *)

Section Mapped.
Variables (f : callback) (this : ref) (h : heap).

Lemma keys_mapped acc es : JsMap.keys (mapped f this h acc es) = es.*1.
Proof.
  revert acc. induction es as [|[k v] es IH]; intros acc; [done|].
  cbn [mapped]. by rewrite keys_Some, IH.
Qed.

Lemma size_mapped acc es : JsMap.size (mapped f this h acc es) = length es.
Proof. by rewrite <- length_keys, keys_mapped, length_fmap. Qed.

Lemma wf_mapped acc es : NoDup es.*1 → JsMap.wf (mapped f this h acc es).
Proof. unfold JsMap.wf. by rewrite keys_mapped. Qed.

Lemma length_mapped acc es : length (mapped f this h acc es) = length es.
Proof.
  revert acc. induction es as [|[k v] es IH]; intros acc; [done|].
  cbn [mapped length]. by rewrite IH.
Qed.

(** Record [i] of the mapped records holds the key of entry [i] and what
    the callback returns on that entry and the receiver, in the heap where
    the new group holds the records before it. *)
Lemma lookup_mapped acc es i k v :
  es !! i = Some (k, v) →
  mapped f this h acc es !! i
  = Some (Some (k, f [v; k; VRef this]
                     (h ++ [OGroup (acc ++ take i (mapped f this h acc es))]))).
Proof.
  revert acc i. induction es as [|[k0 v0] es IH]; intros acc i Hi.
  - by rewrite lookup_nil in Hi.
  - cbn [mapped]. destruct i as [|i].
    + cbn in Hi. injection Hi as -> ->. cbn. by rewrite app_nil_r.
    + cbn in Hi. cbn [lookup list_lookup take]. rewrite (IH _ _ Hi).
      by rewrite <- app_assoc.
Qed.

(** Each mapped entry keeps its key and holds what the callback returned
    on the value, the key and the group. *)
Lemma entries_mapped acc es :
  Forall2 (λ e e1, e1.1 = e.1 ∧ ∃ h', e1.2 = f [e.2; e.1; VRef this] h')
          es (JsMap.entries (mapped f this h acc es)).
Proof.
  revert acc. induction es as [|[k v] es IH]; intros acc; [constructor|].
  cbn [mapped]. rewrite entries_Some. constructor; [|apply IH].
  split; [done|]. by eexists.
Qed.

End Mapped.

Section Map.
Variables (st : store) (this : ref) (sl : list slot).
Hypothesis Hthis : objs st !! this = Some (OGroup sl).
Hypothesis Hwf : JsMap.wf sl.
Variable f : callback.

Lemma map_spec (fuel : nat) :
  length sl < fuel →
  ∃ st1, Group.map fuel (Fn f) this st = (Ok (length (objs st)), st1)
         ∧ objs st1 = objs st ++ [OGroup (mapped f this (objs st) [] (JsMap.entries sl))]
         ∧ calls st1 = calls st + JsMap.size sl.
Proof using Hthis Hwf.
  intros Hfuel. unfold Group.map; cbn [as_function].
  assert (new_group st = (Ok (length (objs st)),
                          mkStore (objs st ++ [OGroup []]) (calls st))) as Hnew by done.
  rewrite (bind_Ok _ _ _ _ _ Hnew).
  pose proof (lookup_lt_Some _ _ _ Hthis) as Hlt.
  edestruct (for_of_total (A:=val) this
    (fun key value => mappedValue <- call f [value; key; VRef this];;
                      map_set (length (objs st)) key mappedValue;;; ret Next)
    (length sl)
    (fun i st' => ∃ acc,
       objs st' = objs st ++ [OGroup acc]
       ∧ JsMap.keys acc = JsMap.keys (take i sl)
       ∧ acc ++ mapped f this (objs st) acc (JsMap.entries (drop i sl))
         = mapped f this (objs st) [] (JsMap.entries sl)
       ∧ calls st' = calls st + JsMap.size (take i sl))
    (fun c st' => c = Next
       ∧ objs st' = objs st ++ [OGroup (mapped f this (objs st) [] (JsMap.entries sl))]
       ∧ calls st' = calls st + JsMap.size sl)
    ) with (i := 0) (fuel := fuel)
           (st := mkStore (objs st ++ [OGroup []]) (calls st))
    as (c & st1 & Hrun & -> & Ho & Hc).
  - intros i st' (acc & Ho & _). exists sl. by rewrite Ho, lookup_app_l.
  - intros i st' sl' (acc & Ho & Hk & Hm & Hc) Hsl' Hi.
    rewrite Ho, lookup_app_l, Hthis in Hsl' by done. injection Hsl' as <-.
    exists acc. split_and!; [done | | |].
    + unfold JsMap.keys. by rewrite (entries_take_S _ _ _ Hi), app_nil_r.
    + rewrite <- Hm. by rewrite (drop_S _ _ _ Hi), entries_None.
    + unfold JsMap.size. by rewrite (entries_take_S _ _ _ Hi), app_nil_r.
  - intros i st' sl' key value (acc & Ho & Hk & Hm & Hc) Hsl' Hi.
    rewrite Ho, lookup_app_l, Hthis in Hsl' by done. injection Hsl' as <-.
    rewrite (bind_Ok _ _ _ _ _ (call_ok _ _ _)).
    set (s := Some (key, f [value; key; VRef this] (objs st'))).
    assert (objs (mkStore (objs st') (S (calls st'))) !! length (objs st)
            = Some (OGroup acc)) as Hcur.
    { cbn [objs]. rewrite Ho. apply lookup_last_object. }
    rewrite (bind_Ok _ _ _ _ _ (map_set_ok _ _ _ Hcur key _)).
    eexists _, _. split; [done|]. cbn [objs calls]. exists (acc ++ [s]).
    split_and!.
    + subst s. rewrite Ho, insert_last_object. do 3 f_equal. apply set_absent.
      apply has_false. rewrite Hk. by eapply wf_key_fresh.
    + unfold JsMap.keys in *.
      by rewrite (entries_take_S _ _ _ Hi), entries_app, !fmap_app, Hk.
    + rewrite <- Hm, (drop_S _ _ _ Hi), entries_Some. cbn [mapped].
      rewrite <- app_assoc. subst s. by rewrite Ho.
    + unfold JsMap.size in *.
      rewrite (entries_take_S _ _ _ Hi), length_app. cbn [length]. lia.
  - intros st' (acc & Ho & Hk & Hm & Hc).
    rewrite drop_all in Hm. rewrite firstn_all in Hc.
    change (JsMap.entries []) with (@nil (val * val)) in Hm. cbn [mapped] in Hm.
    rewrite app_nil_r in Hm. by subst acc.
  - lia.
  - lia.
  - exists []. rewrite take_0, drop_0. split_and!; [done | done | done |].
    cbn. change (JsMap.size []) with 0. lia.
  - rewrite (bind_Ok _ _ _ _ _ Hrun). by exists st1.
Qed.

(** C8: [map] returns a group that is new in the heap and leaves every
    object that was there, the receiver among them, as it was: the heap
    after is the heap before followed by the new group. The new group has
    the size of the receiver and its keys in the same order, without an
    emptied record, and under the key of entry [i] exactly the value that
    the callback returns on the receiver's value, the key and the
    receiver, in the heap of that call: the one where the new group holds
    the [i] entries mapped before. The callback is called once for each
    entry. *)
Theorem map_keeps_keys (fuel : nat) :
  length sl < fuel →
  ∃ r st1 sl1,
    Group.map fuel (Fn f) this st = (Ok r, st1)
    ∧ objs st !! r = None
    ∧ objs st1 !! r = Some (OGroup sl1)
    ∧ (∀ r0 o, objs st !! r0 = Some o → objs st1 !! r0 = Some o)
    ∧ objs st1 !! this = Some (OGroup sl)
    ∧ JsMap.size sl1 = JsMap.size sl
    ∧ JsMap.keys sl1 = JsMap.keys sl
    ∧ Forall2 (λ e e1, e1.1 = e.1 ∧ ∃ h', e1.2 = f [e.2; e.1; VRef this] h')
              (JsMap.entries sl) (JsMap.entries sl1)
    ∧ objs st1 = objs st ++ [OGroup sl1]
    ∧ length sl1 = JsMap.size sl
    ∧ (∀ i k v, JsMap.entries sl !! i = Some (k, v) →
         sl1 !! i
         = Some (Some (k, f [v; k; VRef this] (objs st ++ [OGroup (take i sl1)]))))
    ∧ calls st1 = calls st + JsMap.size sl.
Proof using Hthis Hwf.
  intros Hfuel. destruct (map_spec fuel Hfuel) as (st1 & Hrun & Ho & Hc).
  exists (length (objs st)), st1, (mapped f this (objs st) [] (JsMap.entries sl)).
  split_and!.
  - done.
  - by apply lookup_ge_None.
  - rewrite Ho. apply lookup_last_object.
  - intros r0 o Hr0. rewrite Ho. by apply lookup_app_l_Some.
  - rewrite Ho. by apply lookup_app_l_Some.
  - by rewrite size_mapped.
  - by rewrite keys_mapped.
  - apply entries_mapped.
  - done.
  - by rewrite length_mapped.
  - intros i k v Hi. by rewrite (lookup_mapped _ _ _ _ _ _ _ _ Hi).
  - done.
Qed.

End Map.

(** ** [concact] *)

Section Merge.
Implicit Types (tl : list slot) (es : list (val * val)).

Lemma merge_snoc tl es e : merge tl (es ++ [e]) = JsMap.set e.1 e.2 (merge tl es).
Proof. unfold merge. by rewrite foldl_app. Qed.

Lemma merge_app tl es1 es2 : merge tl (es1 ++ es2) = merge (merge tl es1) es2.
Proof. unfold merge. by rewrite foldl_app. Qed.

Lemma wf_merge tl es : JsMap.wf tl → JsMap.wf (merge tl es).
Proof.
  revert tl. induction es as [|e es IH]; intros tl Hwf; [done|].
  cbn. apply IH. by apply wf_set.
Qed.

Lemma length_set k v tl : length (JsMap.set k v tl) ≤ S (length tl).
Proof.
  induction tl as [|[[k' v']|] tl IH]; cbn; [lia | | lia].
  case_decide; cbn; lia.
Qed.

Lemma length_merge tl es : length (merge tl es) ≤ length tl + length es.
Proof.
  revert tl. induction es as [|e es IH]; intros tl; cbn; [lia|].
  etrans; [apply IH|]. pose proof (length_set e.1 e.2 tl). lia.
Qed.

(** Setting a key to the value it has changes nothing. *)
Lemma set_same tl i k v :
  JsMap.wf tl → tl !! i = Some (Some (k, v)) → JsMap.set k v tl = tl.
Proof.
  intros Hwf Hi. rewrite <- (take_drop_middle _ _ _ Hi) at 1.
  rewrite set_at by (by eapply wf_key_fresh).
  apply (take_drop_middle _ _ _ Hi).
Qed.

(** Merging into a group entries of its own changes nothing. *)
Lemma merge_self tl i : JsMap.wf tl → merge tl (JsMap.entries (take i tl)) = tl.
Proof.
  intros Hwf. induction i as [|i IH]; [by rewrite take_0|].
  destruct (tl !! i) as [s|] eqn:Hi.
  - rewrite (entries_take_S _ _ _ Hi). destruct s as [[k v]|].
    + rewrite merge_snoc, IH. by eapply set_same.
    + by rewrite app_nil_r.
  - apply lookup_ge_None in Hi. rewrite take_ge in IH by lia.
    by rewrite take_ge by lia.
Qed.

Lemma get_set_ne k k' v tl : k' ≠ k → JsMap.get k (JsMap.set k' v tl) = JsMap.get k tl.
Proof.
  intros Hne. induction tl as [|[[k0 v0]|] tl IH]; cbn.
  - by rewrite decide_False.
  - destruct (decide (k0 = k')) as [->|]; cbn.
    + by rewrite !decide_False.
    + case_decide; [done | exact IH].
  - exact IH.
Qed.

Lemma has_set_ne k k' v tl : k' ≠ k → JsMap.has k (JsMap.set k' v tl) = JsMap.has k tl.
Proof.
  intros Hne. induction tl as [|[[k0 v0]|] tl IH]; cbn.
  - by rewrite decide_False.
  - destruct (decide (k0 = k')) as [->|]; cbn.
    + by rewrite !decide_False.
    + case_decide; [done | exact IH].
  - exact IH.
Qed.

(** After a merge, a key holds the value of the last merged entry that has
    it, or else the value it held. *)
Lemma get_merge k tl es :
  JsMap.get k (merge tl es) = default (JsMap.get k tl) (last_bound k es).
Proof.
  induction es as [|e es IH] using rev_ind; [done|].
  rewrite merge_snoc. unfold last_bound. rewrite foldl_app. cbn.
  case_decide as He.
  - subst k. by rewrite get_set.
  - by rewrite get_set_ne.
Qed.

Lemma has_merge k tl es :
  JsMap.has k (merge tl es) = JsMap.has k tl || bool_decide (k ∈ es.*1).
Proof.
  induction es as [|e es IH] using rev_ind.
  - cbn. rewrite bool_decide_false; [by rewrite orb_false_r | by intros ?%elem_of_nil].
  - rewrite merge_snoc, fmap_app. change ([e].*1) with [e.1].
    destruct (decide (e.1 = k)) as [<-|Hne].
    + rewrite has_set. rewrite bool_decide_true; [by rewrite orb_true_r|].
      apply elem_of_app. right. by apply list_elem_of_singleton.
    + rewrite has_set_ne, IH by done. f_equal. apply bool_decide_ext.
      rewrite elem_of_app, list_elem_of_singleton.
      split; [by left | intros [?|?]; [done | congruence]].
Qed.

End Merge.

Section Concact.
Variables (this : ref) (fuel : nat).

(** The inner loop: every entry of [g] is set in the receiver. When [g] is
    the receiver itself, the loop runs over the records it writes. *)
Lemma merge_loop (st : store) (tl : list slot) (g : ref) (gl : list slot) :
  objs st !! this = Some (OGroup tl) → JsMap.wf tl →
  objs st !! g = Some (OGroup gl) → length gl < fuel →
  ∃ st1, for_of (A:=val) fuel g 0
           (fun key value => map_set this key value;;; ret Next) st
         = (Ok Next, st1)
         ∧ objs st1 = <[this := OGroup (merge tl (JsMap.entries gl))]> (objs st)
         ∧ calls st1 = calls st.
Proof.
  intros Hthis Hwf Hg Hfuel.
  set (Inv := fun (i : nat) (st' : store) =>
    objs st' = <[this := OGroup (merge tl (JsMap.entries (take i gl)))]> (objs st)
    ∧ calls st' = calls st).
  assert (∀ i st', Inv i st' → objs st' !! g = Some (OGroup gl)) as Hstable.
  { intros i st' (Ho & _). rewrite Ho. destruct (decide (g = this)) as [->|Hne].
    - rewrite (lookup_put _ _ _ Hthis). rewrite Hthis in Hg. injection Hg as <-.
      by rewrite merge_self.
    - by rewrite list_lookup_insert_ne. }
  edestruct (for_of_total (A:=val) g
    (fun key value => map_set this key value;;; ret Next)
    (length gl) Inv
    (fun c st' => c = Next
       ∧ objs st' = <[this := OGroup (merge tl (JsMap.entries gl))]> (objs st)
       ∧ calls st' = calls st)
    ) with (i := 0) (fuel := fuel) (st := st) as (c & st1 & Hrun & -> & Ho & Hc).
  - intros i st' HI. exists gl. split; [by eapply Hstable | done].
  - intros i st' sl' HI Hsl' Hi. rewrite (Hstable _ _ HI) in Hsl'.
    injection Hsl' as <-. destruct HI as (Ho & Hc). split; [|done].
    by rewrite Ho, (entries_take_S _ _ _ Hi), app_nil_r.
  - intros i st' sl' key value HI Hsl' Hi. rewrite (Hstable _ _ HI) in Hsl'.
    injection Hsl' as <-. destruct HI as (Ho & Hc).
    assert (objs st' !! this
            = Some (OGroup (merge tl (JsMap.entries (take i gl))))) as Hcur.
    { rewrite Ho. by eapply lookup_put. }
    rewrite (bind_Ok _ _ _ _ _ (map_set_ok _ _ _ Hcur key value)).
    eexists _, _. split; [done|]. split; [|done]. cbn [objs].
    rewrite Ho, list_insert_insert_eq.
    by rewrite (entries_take_S _ _ _ Hi), merge_snoc.
  - intros st' (Ho & Hc). by rewrite firstn_all in Ho.
  - lia.
  - lia.
  - split; [|done]. rewrite take_0. symmetry. by apply list_insert_id.
  - by exists st1.
Qed.

Lemma instanceof_insert (h : heap) (tl tl' : list slot) (a : arg) :
  h !! this = Some (OGroup tl) →
  instanceof_Group (<[this := OGroup tl']> h) a = instanceof_Group h a.
Proof.
  intros Hthis. destruct a as [|[| | | | |g]]; try done. cbn.
  destruct (decide (g = this)) as [->|Hne].
  - rewrite (lookup_put (mkStore h 0) _ _ Hthis). cbn in Hthis. by rewrite Hthis.
  - by rewrite list_lookup_insert_ne.
Qed.

Lemma sources_insert (h : heap) (tl' : list slot) (groups : list arg) :
  sources (<[this := OGroup tl']> h) this groups = sources h this groups.
Proof.
  unfold sources. induction groups as [|a groups IH]; [done|].
  cbn. rewrite IH. f_equal. destruct a as [|[| | | | |g]]; try done.
  case_decide; [done|]. by rewrite list_lookup_insert_ne.
Qed.

Lemma longest_insert (h : heap) (tl' : list slot) (groups : list arg) :
  longest (<[this := OGroup tl']> h) groups ≤ longest h groups `max` length tl'.
Proof.
  unfold longest. induction groups as [|a groups IH]; cbn; [lia|].
  destruct a as [|[| | | | |g]]; try lia.
  destruct (decide (g = this)) as [->|Hne].
  - destruct (decide (this < length h)).
    + rewrite list_lookup_insert_eq by done. lia.
    + rewrite list_insert_ge by lia. destruct (h !! this) as [[]|]; lia.
  - rewrite list_lookup_insert_ne by done. destruct (h !! g) as [[]|]; lia.
Qed.

(** The outer loop over the arguments. *)
Lemma concact_loop (groups : list arg) (st : store) (tl : list slot) :
  objs st !! this = Some (OGroup tl) → JsMap.wf tl →
  forallb (instanceof_Group (objs st)) groups = true →
  records_bound (objs st) this tl groups < fuel →
  ∃ st1, for_each groups (fun group =>
           match group with
           | NotFn (VRef g) =>
               for_of (A:=val) fuel g 0 (fun key value =>
                 map_set this key value;;; ret Next);;;
               ret ()
           | _ => throw TypeError
           end) st
         = (Ok (), st1)
         ∧ objs st1
           = <[this := OGroup (merge tl (sources (objs st) this groups))]> (objs st)
         ∧ calls st1 = calls st.
Proof.
  revert st tl. induction groups as [|a groups IH]; intros st tl Hthis Hwf Hall Hfuel.
  { exists st. split_and!; [done | | done]. symmetry. by apply list_insert_id. }
  cbn [forallb] in Hall. apply andb_true_iff in Hall as [Ha Hall].
  destruct a as [|[| | | | |g]]; try done. cbn in Ha.
  destruct (objs st !! g) as [[gl|]|] eqn:Hg; try done.
  unfold records_bound, longest in Hfuel. cbn in Hfuel. rewrite Hg in Hfuel.
  fold (longest (objs st) groups) in Hfuel.
  destruct (merge_loop st tl g gl) as (st1 & Hrun & Ho1 & Hc1); [done | done | done | lia |].
  set (es1 := if decide (g = this) then [] else JsMap.entries gl) in *.
  assert (merge tl (JsMap.entries gl) = merge tl es1) as Hes1.
  { subst es1. case_decide as Hgt; [|done]. subst g. rewrite Hthis in Hg.
    injection Hg as <-. rewrite <- (firstn_all tl) at 2. by apply merge_self. }
  rewrite Hes1 in Ho1.
  destruct (IH st1 (merge tl es1)) as (st2 & Hrest & Ho2 & Hc2).
  - rewrite Ho1. by eapply lookup_put.
  - by apply wf_merge.
  - rewrite Ho1. erewrite forallb_pointwise; [exact Hall|].
    intros a. by eapply instanceof_insert.
  - unfold records_bound. rewrite Ho1, sources_insert.
    pose proof (longest_insert (objs st) (merge tl es1) groups).
    pose proof (length_merge tl es1). rewrite length_app in Hfuel.
    change (groups ≫= _) with (sources (objs st) this groups) in Hfuel. lia.
  - exists st2. cbn [for_each].
    rewrite (bind_Ok _ _ _ () st1).
    2:{ by rewrite (bind_Ok _ _ _ _ _ Hrun). }
    split_and!; [done | | congruence].
    rewrite Ho2, Ho1, sources_insert, list_insert_insert_eq.
    rewrite <- merge_app. do 3 f_equal. unfold sources. cbn. by rewrite Hg.
Qed.

End Concact.

(** The receiver [this] holding the records [tl], the arguments [groups]
    all being groups. *)
Section ConcactTheorem.
Variables (st : store) (this : ref) (tl : list slot) (groups : list arg).
Hypothesis Hthis : objs st !! this = Some (OGroup tl).
Hypothesis Hwf : JsMap.wf tl.
Hypothesis Hgroups : forallb (instanceof_Group (objs st)) groups = true.

(** C5, as amended: [concact] sets in the receiver every entry of every
    argument, in argument order, so that a key ends with the value of the
    last argument entry that has it (or keeps its value), in the place it
    had or else after the keys that were there; it returns the receiver
    and changes no other object: no argument other than the receiver
    itself is modified. *)
Theorem concact_merges (fuel : nat) :
  records_bound (objs st) this tl groups < fuel →
  ∃ st1 tl1,
    Group.concact fuel groups this st = (Ok this, st1)
    ∧ objs st1 !! this = Some (OGroup tl1)
    ∧ tl1 = merge tl (sources (objs st) this groups)
    ∧ (∀ k, JsMap.get k tl1
            = default (JsMap.get k tl) (last_bound k (sources (objs st) this groups)))
    ∧ (∀ r, r ≠ this → objs st1 !! r = objs st !! r)
    ∧ calls st1 = calls st.
Proof using Hthis Hwf Hgroups.
  intros Hfuel.
  destruct (concact_loop this fuel groups st tl Hthis Hwf Hgroups Hfuel)
    as (st1 & Hrun & Ho & Hc).
  exists st1, (merge tl (sources (objs st) this groups)).
  split_and!; [| | done | | | done].
  - unfold Group.concact.
    assert (get_heap st = (Ok (objs st), st)) as Hh by done.
    rewrite (bind_Ok _ _ _ _ _ Hh), Hgroups. cbn [negb].
    by rewrite (bind_Ok _ _ _ _ _ Hrun).
  - rewrite Ho. by eapply lookup_put.
  - intros k. apply get_merge.
  - intros r Hr. rewrite Ho. by apply list_lookup_insert_ne.
Qed.

End ConcactTheorem.

(** X26: An argument that is not a group is refused, and nothing is merged. *)
Lemma concact_not_groups (fuel : nat) (groups : list arg) (this : ref) (st : store) :
  forallb (instanceof_Group (objs st)) groups = false →
  Group.concact fuel groups this st
  = (Throw (GroupError "Invalid ...groups parameter. Expected a rest of groups."
              (OfRest groups)), st).
Proof.
  intros H. unfold Group.concact.
  assert (get_heap st = (Ok (objs st), st)) as Hh by done.
  by rewrite (bind_Ok _ _ _ _ _ Hh), H.
Qed.

(** ** The scenarios of the specification, and the inputs that decide *)

Lemma wf_abc : JsMap.wf abc.
Proof. apply (bool_decide_unpack _). by vm_compute. Qed.

Lemma gt1_pure : pure_predicate gt1.
Proof. by intros v k t h t' h'. Qed.

Example scenario_find :
  Group.find 4 (Fn gt1) 0 st_abc = (Ok (n_ 2), mkStore [OGroup abc] 2).
Proof. by vm_compute. Qed.

Example scenario_filter :
  Group.filter 4 (Fn gt1) 0 st_abc
  = (Ok 1, mkStore [OGroup abc; OGroup [Some (VStr "b", n_ 2); Some (VStr "c", n_ 3)]] 3).
Proof. by vm_compute. Qed.

Example scenario_at :
  Group.at_ (NotFn (n_ (-1))) 0 st_abc = (Ok (n_ 3), st_abc)
  ∧ Group.keyAt (NotFn (n_ 0)) 0 st_abc = (Ok (VStr "a"), st_abc).
Proof. by vm_compute. Qed.

Example scenario_fallback :
  Group.fallback (VStr "d") (Fn four) 0 st_abc
  = (Ok (n_ 4), mkStore [OGroup (abc ++ [Some (VStr "d", n_ 4)])] 1).
Proof. by vm_compute. Qed.

Example scenario_concact :
  Group.concact 3 [NotFn (VRef 1)] 0 st_a_ab
  = (Ok 0, mkStore [OGroup [Some (VStr "a", n_ 2); Some (VStr "b", n_ 3)];
                    OGroup [Some (VStr "a", n_ 2); Some (VStr "b", n_ 3)]] 0).
Proof. by vm_compute. Qed.

(** A predicate that consults the group is not pure in the sense above:
    what [sweep] leaves can satisfy it. *)
Example sweep_peeking :
  ∃ st1 st2, Group.sweep 3 (Fn peeking) 0 st_ba = (Ok 0, st1)
             ∧ objs st1 = [OGroup [Some (VStr "b", n_ 2); None]]
             ∧ Group.some 3 (Fn peeking) 0 st1 = (Ok true, st2).
Proof. eexists _, _. by vm_compute. Qed.

(** With six entries, [last(size + 5)] is the last five values. *)
Example last_size_plus_5 :
  Group.last (NotFn (n_ 11)) 0 st_six
  = (Ok (Several [n_ 2; n_ 3; n_ 4; n_ 5; n_ 6]), st_six).
Proof. by vm_compute. Qed.

(** C1: on the group [{a: 1, b: 2, c: 3}], [first(4)] is the three values
    and [last(4)] is the last value alone, where the last [min(4, 3)]
    values are all three. *)
Theorem last_amount_beyond_size :
  Group.first (NotFn (n_ 4)) 0 st_abc = (Ok (Several [n_ 1; n_ 2; n_ 3]), st_abc)
  ∧ Group.last (NotFn (n_ 4)) 0 st_abc = (Ok (Several [n_ 3]), st_abc)
  ∧ drop (3 - 4 `min` 3) (JsMap.values abc) = [n_ 1; n_ 2; n_ 3].
Proof. by vm_compute. Qed.

(** C2: [1.5] is a number and not an integer; the parameterised variant
    answers [at(1.5)] and [keyAt(1.5)] as it answers at index 1, where the
    second variant raises. *)
Theorem at_takes_fraction :
  JsNum.is_integer (NotFn one_and_a_half) = false
  ∧ Group.at_ (NotFn one_and_a_half) 0 st_abc = (Ok (n_ 2), st_abc)
  ∧ Group.keyAt (NotFn one_and_a_half) 0 st_abc = (Ok (VStr "b"), st_abc)
  ∧ Group2.at_ (NotFn one_and_a_half) 0 st_abc
    = (Throw (GroupError "Invalid index parameter. Expected an integer number."
                (OfArg (NotFn one_and_a_half))), st_abc).
Proof. by vm_compute. Qed.

(** C7, as stated, fails for a pure predicate that looks at the group it
    is shown: [(v, k, g) => g === C] is a function of its arguments alone;
    [filter] shows it the receiver [C] and keeps every entry, [every]
    shows it the new group and answers false. *)
Lemma filter_every_shown_receiver :
  (∀ args h h', shown_receiver args h = shown_receiver args h')
  ∧ ∃ r st1 st2,
      Group.filter 4 (Fn shown_receiver) 0 st_abc = (Ok r, st1)
      ∧ objs st1 !! r = Some (OGroup abc)
      ∧ Group.every 4 (Fn shown_receiver) r st1 = (Ok false, st2).
Proof. split; [done|]. eexists _, _, _. by vm_compute. Qed.

(** C5, as stated, fails when the receiver is also an argument: merging
    [{a: 2, b: 3}] and then the receiver [{a: 1}] itself into the receiver
    modifies that argument. *)
Lemma concact_receiver_as_argument :
  ∃ st1, Group.concact 3 [NotFn (VRef 1); NotFn (VRef 0)] 0 st_a_ab = (Ok 0, st1)
         ∧ NotFn (VRef 0) ∈ [NotFn (VRef 1); NotFn (VRef 0)]
         ∧ objs st1 !! 0 ≠ objs st_a_ab !! 0.
Proof.
  eexists. split_and!; [by vm_compute | |].
  - apply elem_of_cons. right. apply elem_of_cons. by left.
  - by vm_compute.
Qed.

(** ** The theorems at concrete inputs *)

Lemma not_callable_throws_witness :
  typeof (NotFn (VStr "fn")) ≠ TFunction
  ∧ Group.sweep 4 (NotFn (VStr "fn")) 0 st_abc
    = (Throw (GroupError "fn parameter must be a valid function."
                (OfArg (NotFn (VStr "fn")))), st_abc).
Proof.
  split; [done|].
  apply (not_callable_throws 4 (NotFn (VStr "fn")) VUndef 0 st_abc). done.
Defined.

Lemma first_last_amount_not_number_witness :
  objs st_abc !! 0 = Some (OGroup abc)
  ∧ typeof (NotFn (VStr "2")) ≠ TNumber
  ∧ Group.first (NotFn (VStr "2")) 0 st_abc = Group.first (NotFn VUndef) 0 st_abc.
Proof.
  split_and!; [done | done |].
  apply (first_last_amount_not_number st_abc 0 abc eq_refl (NotFn (VStr "2"))). done.
Defined.

Lemma fallback_get_or_create_witness :
  objs st_abc !! 0 = Some (OGroup abc)
  ∧ ∃ v st1,
      Group.fallback (VStr "d") (Fn four) 0 st_abc = (Ok v, st1)
      ∧ (JsMap.has (VStr "d") abc = true → v = JsMap.get (VStr "d") abc ∧ st1 = st_abc)
      ∧ (JsMap.has (VStr "d") abc = false →
           v = four [VStr "d"; VRef 0] (objs st_abc)
           ∧ calls st1 = S (calls st_abc)
           ∧ objs st1 = <[0 := OGroup (JsMap.set (VStr "d") v abc)]> (objs st_abc))
      ∧ ∀ g' : callback, Group.fallback (VStr "d") (Fn g') 0 st1 = (Ok v, st1).
Proof.
  split; [done|].
  exact (fallback_get_or_create st_abc 0 abc eq_refl four (VStr "d")).
Defined.

Lemma fallback_appends_witness :
  objs st_abc !! 0 = Some (OGroup abc)
  ∧ JsMap.has (VStr "d") abc = false
  ∧ ∃ st1 sl1,
      Group.fallback (VStr "d") (Fn four) 0 st_abc
      = (Ok (four [VStr "d"; VRef 0] (objs st_abc)), st1)
      ∧ objs st1 !! 0 = Some (OGroup sl1)
      ∧ JsMap.entries sl1
        = JsMap.entries abc ++ [(VStr "d", four [VStr "d"; VRef 0] (objs st_abc))]
      ∧ Group.keyAt (NotFn (n_ (Z.of_nat (JsMap.size sl1) - 1))) 0 st1 = (Ok (VStr "d"), st1)
      ∧ ∀ i : nat, i < JsMap.size abc →
          (Group.keyAt (NotFn (n_ (Z.of_nat i))) 0 st1).1
          = (Group.keyAt (NotFn (n_ (Z.of_nat i))) 0 st_abc).1
          ∧ (Group.at_ (NotFn (n_ (Z.of_nat i))) 0 st1).1
            = (Group.at_ (NotFn (n_ (Z.of_nat i))) 0 st_abc).1.
Proof.
  split_and!; [done | done |].
  apply (fallback_appends st_abc 0 abc eq_refl four (VStr "d")). done.
Defined.


Lemma filter_every_witness :
  objs st_abc !! 0 = Some (OGroup abc)
  ∧ JsMap.wf abc
  ∧ pure_predicate gt1
  ∧ length abc < 4
  ∧ ∃ r st1 sl1 st2,
      Group.filter 4 (Fn gt1) 0 st_abc = (Ok r, st1)
      ∧ objs st_abc !! r = None
      ∧ objs st1 !! r = Some (OGroup sl1)
      ∧ JsMap.entries sl1
        = filter (λ e, verdict st_abc 0 gt1 e = true) (JsMap.entries abc)
      ∧ Group.every 4 (Fn gt1) r st1 = (Ok true, st2).
Proof.
  split_and!; [done | apply wf_abc | apply gt1_pure | cbn; lia |].
  apply (filter_every st_abc 0 abc eq_refl wf_abc gt1 gt1_pure 4).
  cbn; lia.
Defined.

Lemma map_keeps_keys_witness :
  objs st_abc !! 0 = Some (OGroup abc)
  ∧ JsMap.wf abc
  ∧ length abc < 4
  ∧ ∃ r st1 sl1,
      Group.map 4 (Fn gt1) 0 st_abc = (Ok r, st1)
      ∧ objs st_abc !! r = None
      ∧ objs st1 !! r = Some (OGroup sl1)
      ∧ (∀ r0 o, objs st_abc !! r0 = Some o → objs st1 !! r0 = Some o)
      ∧ objs st1 !! 0 = Some (OGroup abc)
      ∧ JsMap.size sl1 = JsMap.size abc
      ∧ JsMap.keys sl1 = JsMap.keys abc
      ∧ Forall2 (λ e e1, e1.1 = e.1 ∧ ∃ h', e1.2 = gt1 [e.2; e.1; VRef 0] h')
                (JsMap.entries abc) (JsMap.entries sl1)
      ∧ objs st1 = objs st_abc ++ [OGroup sl1]
      ∧ length sl1 = JsMap.size abc
      ∧ (∀ i k v, JsMap.entries abc !! i = Some (k, v) →
           sl1 !! i
           = Some (Some (k, gt1 [v; k; VRef 0] (objs st_abc ++ [OGroup (take i sl1)]))))
      ∧ calls st1 = calls st_abc + JsMap.size abc.
Proof.
  split_and!; [done | apply wf_abc | cbn; lia |].
  apply (map_keeps_keys st_abc 0 abc eq_refl wf_abc gt1 4).
  cbn; lia.
Defined.

Lemma concact_merges_witness :
  objs st_a_ab !! 0 = Some (OGroup [Some (VStr "a", n_ 1)])
  ∧ JsMap.wf [Some (VStr "a", n_ 1)]
  ∧ forallb (instanceof_Group (objs st_a_ab)) [NotFn (VRef 1)] = true
  ∧ records_bound (objs st_a_ab) 0 [Some (VStr "a", n_ 1)] [NotFn (VRef 1)] < 4
  ∧ ∃ st1 tl1,
      Group.concact 4 [NotFn (VRef 1)] 0 st_a_ab = (Ok 0, st1)
      ∧ objs st1 !! 0 = Some (OGroup tl1)
      ∧ tl1 = merge [Some (VStr "a", n_ 1)] (sources (objs st_a_ab) 0 [NotFn (VRef 1)])
      ∧ (∀ k, JsMap.get k tl1
              = default (JsMap.get k [Some (VStr "a", n_ 1)])
                  (last_bound k (sources (objs st_a_ab) 0 [NotFn (VRef 1)])))
      ∧ (∀ r, r ≠ 0 → objs st1 !! r = objs st_a_ab !! r)
      ∧ calls st1 = calls st_a_ab.
Proof.
  assert (JsMap.wf [Some (VStr "a", n_ 1)]) as Hwf
    by (apply (bool_decide_unpack _); by vm_compute).
  split_and!; [done | exact Hwf | done | vm_compute; lia |].
  apply (concact_merges st_a_ab 0 [Some (VStr "a", n_ 1)] [NotFn (VRef 1)]
           eq_refl Hwf eq_refl 4).
  vm_compute; lia.
Defined.

(** * Further properties of the class *)

(** ** Loops that only read: [each], [find], [findKey] *)

Lemma find_app_None {X} (p : X → bool) (l1 l2 : list X) :
  List.find p l1 = None → List.find p (l1 ++ l2) = List.find p l2.
Proof.
  induction l1 as [|x l1 IH]; [done|]. cbn. destruct (p x); [done | exact IH].
Qed.

(** The first element that [p] accepts is what [find] finds. *)
Lemma find_first {X} (p : X → bool) (l : list X) (i : nat) (x : X) :
  l !! i = Some x → p x = true →
  (∀ j y, j < i → l !! j = Some y → p y = false) →
  List.find p l = Some x.
Proof.
  revert i. induction l as [|y l IH]; intros i Hi Hx Hbefore.
  - by rewrite lookup_nil in Hi.
  - cbn [List.find]. destruct i as [|i].
    + cbn in Hi. injection Hi as ->. by rewrite Hx.
    + rewrite (Hbefore 0 y) by (done || lia). apply (IH i); [done | done |].
      intros j y' Hj Hy'. apply (Hbefore (S j)); [lia | done].
Qed.

Section Scans.
Variables (st : store) (this : ref) (sl : list slot).
Hypothesis Hthis : objs st !! this = Some (OGroup sl).
Variable f : callback.

Local Abbreviation P := (verdict st this f).

(** A loop that returns [res key value] at the first entry whose verdict
    is truthy. *)
Lemma scan_spec {A} (res : val → val → A) (fuel : nat) :
  length sl < fuel →
  ∃ st', for_of fuel this 0 (fun key value =>
           t <- call f [value; key; VRef this];;
           if truthy t then ret (Return (res key value)) else ret Next) st
         = (Ok (match List.find P (JsMap.entries sl) with
                | Some e => Return (res e.1 e.2)
                | None => Next
                end), st')
         ∧ objs st' = objs st ∧ calls st ≤ calls st'.
Proof using Hthis.
  intros Hfuel.
  edestruct (for_of_total (A:=A) this
    (fun key value => t <- call f [value; key; VRef this];;
                      if truthy t then ret (Return (res key value)) else ret Next)
    (length sl)
    (fun i st' => objs st' = objs st ∧ calls st ≤ calls st'
                  ∧ List.find P (JsMap.entries (take i sl)) = None)
    (fun c st' => objs st' = objs st ∧ calls st ≤ calls st'
                  ∧ c = match List.find P (JsMap.entries sl) with
                        | Some e => Return (res e.1 e.2)
                        | None => Next
                        end)
    ) with (i := 0) (st := st) (fuel := fuel) as (c & st' & Hrun & Ho & Hc & ->).
  - intros i st' (Ho & _). exists sl. by rewrite Ho.
  - intros i st' sl' (Ho & Hc & Hn) Hsl' Hi. rewrite Ho, Hthis in Hsl'.
    injection Hsl' as <-. split_and!; [done | done |].
    by rewrite (entries_take_S _ _ _ Hi), app_nil_r.
  - intros i st' sl' key value (Ho & Hc & Hn) Hsl' Hi. rewrite Ho, Hthis in Hsl'.
    injection Hsl' as <-. rewrite (bind_Ok _ _ _ _ _ (call_ok _ _ _)). rewrite Ho.
    change (truthy (f [value; key; VRef this] (objs st))) with (P (key, value)).
    destruct (P (key, value)) eqn:Hv; eexists _, _; (split; [done|]); cbn [objs calls].
    + split_and!; [done | lia |].
      rewrite (entries_split _ _ _ Hi), (find_app_None _ _ _ Hn). cbn. by rewrite Hv.
    + split_and!; [done | lia |].
      rewrite (entries_take_S _ _ _ Hi), (find_app_None _ _ _ Hn). cbn. by rewrite Hv.
  - intros st' (Ho & Hc & Hn). rewrite firstn_all in Hn. by rewrite Hn.
  - lia.
  - lia.
  - split_and!; [done | done |]. by rewrite take_0.
  - by exists st'.
Qed.

Lemma find_spec (fuel : nat) :
  length sl < fuel →
  ∃ st', Group.find fuel (Fn f) this st
         = (Ok (default VUndef (snd <$> List.find P (JsMap.entries sl))), st')
         ∧ objs st' = objs st ∧ calls st ≤ calls st'.
Proof using Hthis.
  intros Hfuel. unfold Group.find; cbn [as_function].
  destruct (scan_spec (fun _ value => value) fuel Hfuel) as (st' & Hrun & Ho & Hc).
  rewrite (bind_Ok _ _ _ _ _ Hrun). exists st'.
  by destruct (List.find P (JsMap.entries sl)).
Qed.

Lemma findKey_spec (fuel : nat) :
  length sl < fuel →
  ∃ st', Group.findKey fuel (Fn f) this st
         = (Ok (default VUndef (fst <$> List.find P (JsMap.entries sl))), st')
         ∧ objs st' = objs st ∧ calls st ≤ calls st'.
Proof using Hthis.
  intros Hfuel. unfold Group.findKey; cbn [as_function].
  destruct (scan_spec (fun key _ => key) fuel Hfuel) as (st' & Hrun & Ho & Hc).
  rewrite (bind_Ok _ _ _ _ _ Hrun). exists st'.
  by destruct (List.find P (JsMap.entries sl)).
Qed.

(** X1: [each] calls the function once for every entry and returns the
    receiver; the heap is as it was. *)
Theorem each_visits_all (fuel : nat) :
  length sl < fuel →
  ∃ st', Group.each fuel (Fn f) this st = (Ok this, st')
         ∧ objs st' = objs st
         ∧ calls st' = calls st + JsMap.size sl.
Proof using Hthis.
  intros Hfuel. unfold Group.each; cbn [as_function].
  edestruct (for_of_total (A:=val) this
    (fun key value => call f [value; key; VRef this];;; ret Next)
    (length sl)
    (fun i st' => objs st' = objs st
                  ∧ calls st' = calls st + JsMap.size (take i sl))
    (fun c st' => c = Next ∧ objs st' = objs st
                  ∧ calls st' = calls st + JsMap.size sl)
    ) with (i := 0) (st := st) (fuel := fuel) as (c & st' & Hrun & -> & Ho & Hc).
  - intros i st' (Ho & _). exists sl. by rewrite Ho.
  - intros i st' sl' (Ho & Hc) Hsl' Hi. rewrite Ho, Hthis in Hsl'.
    injection Hsl' as <-. split; [done|].
    unfold JsMap.size. by rewrite (entries_take_S _ _ _ Hi), app_nil_r.
  - intros i st' sl' key value (Ho & Hc) Hsl' Hi. rewrite Ho, Hthis in Hsl'.
    injection Hsl' as <-. rewrite (bind_Ok _ _ _ _ _ (call_ok _ _ _)).
    eexists _, _. split; [done|]. cbn [objs calls]. split; [done|].
    unfold JsMap.size in *. rewrite (entries_take_S _ _ _ Hi), length_app.
    cbn [length]. lia.
  - intros st' (Ho & Hc). by rewrite firstn_all in Hc.
  - lia.
  - lia.
  - split; [done|]. rewrite take_0. change (JsMap.size []) with 0. lia.
  - rewrite (bind_Ok _ _ _ _ _ Hrun). by exists st'.
Qed.

(** X2: [find] returns the value of the first entry, in iteration order, that
    the predicate accepts, and [undefined] when it accepts none. *)
Theorem find_first_match (fuel : nat) :
  length sl < fuel →
  ∃ st', objs st' = objs st
    ∧ ((∀ e, e ∈ JsMap.entries sl → P e = false)
       → Group.find fuel (Fn f) this st = (Ok VUndef, st'))
    ∧ (∀ i k v, JsMap.entries sl !! i = Some (k, v) → P (k, v) = true →
         (∀ j e, j < i → JsMap.entries sl !! j = Some e → P e = false) →
         Group.find fuel (Fn f) this st = (Ok v, st')).
Proof using Hthis.
  intros Hfuel. destruct (find_spec fuel Hfuel) as (st' & Hrun & Ho & _).
  exists st'. split; [done|]. split.
  - intros Hnone. rewrite Hrun.
    destruct (List.find P (JsMap.entries sl)) as [e|] eqn:Hf; [|done].
    apply find_some in Hf as [He Hv]. apply list_elem_of_In in He.
    by rewrite Hnone in Hv.
  - intros i k v Hi Hv Hbefore. rewrite Hrun.
    by rewrite (find_first _ _ _ _ Hi Hv Hbefore).
Qed.

End Scans.

(** In a well-formed record list, [get] on the key of an entry gives the
    value of that entry. *)
Lemma get_entry (sl : list slot) (k v : val) :
  JsMap.wf sl → (k, v) ∈ JsMap.entries sl → JsMap.get k sl = v.
Proof.
  induction sl as [|[[k' v']|] sl IH]; intros Hwf Hin.
  - by apply elem_of_nil in Hin.
  - rewrite entries_Some in Hin. unfold JsMap.wf in Hwf. rewrite keys_Some in Hwf.
    apply NoDup_cons in Hwf as [Hfresh Hwf]. cbn.
    apply elem_of_cons in Hin as [Heq|Hin].
    + injection Heq as -> ->. by rewrite decide_True.
    + case_decide as Hk; [|by apply IH]. subst k'. exfalso. apply Hfresh.
      unfold JsMap.keys. apply list_elem_of_fmap. by exists (k, v).
  - rewrite entries_None in Hin. cbn. apply IH; [|done].
    unfold JsMap.wf in *. by rewrite keys_None in Hwf.
Qed.

Lemma has_entry (sl : list slot) (k v : val) :
  (k, v) ∈ JsMap.entries sl → JsMap.has k sl = true.
Proof.
  intros Hin. apply has_true. unfold JsMap.keys.
  apply list_elem_of_fmap. by exists (k, v).
Qed.

Section Searches.
Variables (st : store) (this : ref) (sl : list slot).
Hypothesis Hthis : objs st !! this = Some (OGroup sl).
Variable f : callback.

Local Abbreviation P := (verdict st this f).

(** X3: [findKey] and [find] stop at the same entry: when the predicate
    accepts an entry, [findKey] returns a key that the group has and [get]
    of that key is the value [find] returns; when it accepts none, both
    return [undefined]. *)
Theorem findKey_names_find (fuel : nat) :
  JsMap.wf sl → length sl < fuel →
  ∃ k v st1 st2,
    Group.findKey fuel (Fn f) this st = (Ok k, st1)
    ∧ Group.find fuel (Fn f) this st = (Ok v, st2)
    ∧ (existsb P (JsMap.entries sl) = true
       → JsMap.has k sl = true ∧ JsMap.get k sl = v ∧ P (k, v) = true)
    ∧ (existsb P (JsMap.entries sl) = false → k = VUndef ∧ v = VUndef).
Proof using Hthis.
  intros Hwf Hfuel.
  destruct (findKey_spec st this sl Hthis f fuel Hfuel) as (st1 & Hk & _).
  destruct (find_spec st this sl Hthis f fuel Hfuel) as (st2 & Hv & _).
  eexists _, _, st1, st2. split; [exact Hk|]. split; [exact Hv|].
  destruct (List.find P (JsMap.entries sl)) as [[k v]|] eqn:Hf; cbn.
  - apply find_some in Hf as [Hin HP]. apply list_elem_of_In in Hin.
    split; [|intros Hnone].
    + intros _. split_and!; [by eapply has_entry | by apply get_entry | done].
    + assert (existsb P (JsMap.entries sl) = true) as Hex.
      { apply existsb_exists. exists (k, v). split; [by apply list_elem_of_In | done]. }
      congruence.
  - split; [|done]. intros Hex. apply existsb_exists in Hex as (e & Hin & HP).
    by rewrite (find_none _ _ Hf e Hin) in HP.
Qed.

(** X4: [some] answers whether an entry is accepted and [every] whether all
    are, so an empty group gives [false] and [true]; neither changes the
    heap. *)
Theorem some_every_decide (fuel : nat) :
  length sl < fuel →
  ∃ st1 st2,
    Group.some fuel (Fn f) this st = (Ok (existsb P (JsMap.entries sl)), st1)
    ∧ Group.every fuel (Fn f) this st = (Ok (forallb P (JsMap.entries sl)), st2)
    ∧ objs st1 = objs st ∧ objs st2 = objs st
    ∧ (JsMap.size sl = 0 →
         Group.some fuel (Fn f) this st = (Ok false, st1)
         ∧ Group.every fuel (Fn f) this st = (Ok true, st2)).
Proof using Hthis.
  intros Hfuel.
  destruct (some_spec st this sl Hthis f fuel Hfuel) as (st1 & Hs & Ho1 & _).
  destruct (every_spec st this sl Hthis f fuel Hfuel) as (st2 & He & Ho2 & _).
  exists st1, st2. split_and!; [done | done | done | done |].
  intros Hempty. unfold JsMap.size in Hempty.
  apply nil_length_inv in Hempty. rewrite Hempty in Hs, He. by split.
Qed.

(** X5: [every(f)] is the negation of [some] of the negated predicate. *)
Theorem every_not_some_not (fuel : nat) :
  length sl < fuel →
  ∃ b st1 st2,
    Group.every fuel (Fn f) this st = (Ok b, st1)
    ∧ Group.some fuel (Fn (negated f)) this st = (Ok (negb b), st2).
Proof using Hthis.
  intros Hfuel.
  destruct (every_spec st this sl Hthis f fuel Hfuel) as (st1 & He & _).
  destruct (some_spec st this sl Hthis (negated f) fuel Hfuel) as (st2 & Hs & _).
  eexists _, st1, st2. split; [exact He|]. rewrite Hs. do 2 f_equal.
  clear He Hs. induction (JsMap.entries sl) as [|e es IH]; [done|].
  cbn [existsb forallb]. rewrite IH, negb_andb. f_equal.
Qed.

End Searches.

(** ** [hasAll] and [hasAny] *)

Section HasKeys.
Variables (st : store) (this : ref) (sl : list slot).
Hypothesis Hthis : objs st !! this = Some (OGroup sl).

Lemma array_every_has (ks : list val) :
  array_every ks (fun key => map_has this key) st
  = (Ok (forallb (λ k, JsMap.has k sl) ks), st).
Proof using Hthis.
  induction ks as [|k ks IH]; [done|]. cbn [array_every forallb].
  rewrite (bind_Ok _ _ _ _ _ (map_has_ok _ _ _ Hthis k)).
  by destruct (JsMap.has k sl).
Qed.

Lemma array_some_has (ks : list val) :
  array_some ks (fun key => map_has this key) st
  = (Ok (existsb (λ k, JsMap.has k sl) ks), st).
Proof using Hthis.
  induction ks as [|k ks IH]; [done|]. cbn [array_some existsb].
  rewrite (bind_Ok _ _ _ _ _ (map_has_ok _ _ _ Hthis k)).
  by destruct (JsMap.has k sl).
Qed.

(** X6: [hasAll] answers whether every listed key is a key of the group and
    [hasAny] whether one of them is; the store is left as it was. *)
Theorem hasAll_hasAny_decide (ks : list val) :
  ∃ b1 b2,
    Group.hasAll (KeyArray ks) this st = (Ok b1, st)
    ∧ Group.hasAny (KeyArray ks) this st = (Ok b2, st)
    ∧ (b1 = true ↔ ∀ k, k ∈ ks → k ∈ JsMap.keys sl)
    ∧ (b2 = true ↔ ∃ k, k ∈ ks ∧ k ∈ JsMap.keys sl).
Proof using Hthis.
  eexists _, _. cbn [Group.hasAll Group.hasAny].
  rewrite array_every_has, array_some_has. split_and!; [done | done | |].
  - rewrite forallb_forall. split.
    + intros H k Hk. apply has_true, H. by apply list_elem_of_In.
    + intros H k Hk. apply has_true, H. by apply list_elem_of_In.
  - rewrite existsb_exists. split.
    + intros (k & Hk & Hh). exists k. split; [by apply list_elem_of_In | by apply has_true].
    + intros (k & Hk & Hh). exists k. split; [by apply list_elem_of_In | by apply has_true].
Qed.

(** X7: Asked about the group's own keys, [hasAll] answers true, and [hasAny]
    answers true unless the group is empty. *)
Theorem hasAll_own_keys :
  Group.hasAll (KeyArray (JsMap.keys sl)) this st = (Ok true, st)
  ∧ Group.hasAny (KeyArray (JsMap.keys sl)) this st
    = (Ok (negb (bool_decide (JsMap.size sl = 0))), st).
Proof using Hthis.
  cbn [Group.hasAll Group.hasAny]. rewrite array_every_has, array_some_has. split.
  - do 2 f_equal. apply forallb_forall. intros k Hk. by apply has_true, list_elem_of_In.
  - do 2 f_equal. rewrite <- length_keys.
    destruct (JsMap.keys sl) as [|k ks] eqn:Hks; [done|].
    cbn [existsb length]. rewrite bool_decide_false by done.
    assert (JsMap.has k sl = true) as ->; [|done].
    apply has_true. rewrite Hks. apply elem_of_cons. by left.
Qed.

End HasKeys.

(** X8: [hasAll] and [hasAny] refuse what is not an array and leave the store
    as it was; on the empty array they answer [true] and [false] without
    looking at the receiver. *)
Theorem hasAll_hasAny_edges (a : arg) (this : ref) (st : store) :
  Group.hasAll (NotArray a) this st
  = (Throw (GroupError "Invalid keys parameter. Expected an array of keys." (OfArg a)), st)
  ∧ Group.hasAny (NotArray a) this st
    = (Throw (GroupError "Invalid keys parameter. Expected an array of keys." (OfArg a)), st)
  ∧ Group.hasAll (KeyArray []) this st = (Ok true, st)
  ∧ Group.hasAny (KeyArray []) this st = (Ok false, st).
Proof. done. Qed.

(** ** The constructor *)

(** Pairs with distinct keys, none of them held yet, are appended as they
    come. *)
Lemma merge_fresh (acc : list slot) (es : list (val * val)) :
  NoDup (JsMap.keys acc ++ es.*1) → merge acc es = acc ++ (Some <$> es).
Proof.
  revert acc. induction es as [|[k v] es IH]; intros acc Hnd.
  - by rewrite app_nil_r.
  - cbn [merge foldl fst snd]. fold (merge (JsMap.set k v acc) es).
    rewrite fmap_cons in Hnd. cbn [fst] in Hnd.
    assert (JsMap.has k acc = false) as Hk.
    { apply has_false. intros Hin. apply NoDup_app in Hnd as (_ & Hd & _).
      apply (Hd k Hin). apply elem_of_cons. by left. }
    rewrite set_absent by done. rewrite IH.
    + by rewrite <- app_assoc.
    + rewrite keys_app. change (JsMap.keys [Some (k, v)]) with [k].
      by rewrite <- app_assoc.
Qed.

Lemma construct_run (pairs : list (val * val)) (h : heap) (acc : list slot) (n : nat) :
  for_each pairs (fun p => map_set (length h) p.1 p.2;;; ret ())
    (mkStore (h ++ [OGroup acc]) n)
  = (Ok (), mkStore (h ++ [OGroup (merge acc pairs)]) n).
Proof.
  revert acc. induction pairs as [|[k v] pairs IH]; intros acc; [done|].
  cbn [for_each fst snd].
  assert (objs (mkStore (h ++ [OGroup acc]) n) !! length h = Some (OGroup acc)) as Hcur
    by apply lookup_last_object.
  rewrite (bind_Ok _ _ _ () (mkStore (h ++ [OGroup (JsMap.set k v acc)]) n)).
  - apply IH.
  - rewrite (bind_Ok _ _ _ _ _ (map_set_ok _ _ _ Hcur k v)). cbn [objs calls].
    by rewrite insert_last_object.
Qed.

Lemma construct_spec (pairs : list (val * val)) (st : store) :
  Group.construct (Some pairs) st
  = (Ok (length (objs st)),
     mkStore (objs st ++ [OGroup (merge [] pairs)]) (calls st)).
Proof.
  unfold Group.construct.
  assert (new_group st = (Ok (length (objs st)),
                          mkStore (objs st ++ [OGroup []]) (calls st))) as Hnew by done.
  rewrite (bind_Ok _ _ _ _ _ Hnew).
  by rewrite (bind_Ok _ _ _ _ _ (construct_run pairs (objs st) [] (calls st))).
Qed.

(** X9: [new Group(pairs)] allocates a group and changes no object; the group
    keeps the invariant of the Map, has exactly the keys of the pairs, and
    under each key the value of the last pair with that key. Without
    pairs the group is empty. *)
Theorem construct_last_wins (pairs : list (val * val)) (st : store) :
  ∃ r st1 sl1,
    Group.construct (Some pairs) st = (Ok r, st1)
    ∧ objs st !! r = None
    ∧ objs st1 !! r = Some (OGroup sl1)
    ∧ (∀ r0 o, objs st !! r0 = Some o → objs st1 !! r0 = Some o)
    ∧ JsMap.wf sl1
    ∧ (∀ k, JsMap.has k sl1 = bool_decide (k ∈ pairs.*1)
            ∧ JsMap.get k sl1 = default VUndef (last_bound k pairs))
    ∧ JsMap.size sl1 ≤ length pairs
    ∧ Group.construct None st
      = (Ok r, mkStore (objs st ++ [OGroup []]) (calls st)).
Proof.
  exists (length (objs st)), (mkStore (objs st ++ [OGroup (merge [] pairs)]) (calls st)),
    (merge [] pairs).
  split_and!.
  - apply construct_spec.
  - by apply lookup_ge_None.
  - apply lookup_last_object.
  - intros r0 o Hr0. by apply lookup_app_l_Some.
  - apply wf_merge, wf_nil.
  - intros k. split; [by rewrite has_merge | by rewrite get_merge].
  - pose proof (size_le_length (merge [] pairs)).
    pose proof (length_merge [] pairs). cbn [length] in *. lia.
  - done.
Qed.

(** X10: Built from the entries of a group, the new group has the same entries
    in the same order, and no emptied record. *)
Theorem construct_copies (this : ref) (sl : list slot) (st : store) :
  objs st !! this = Some (OGroup sl) → JsMap.wf sl →
  ∃ r st1,
    Group.construct (Some (JsMap.entries sl)) st = (Ok r, st1)
    ∧ r ≠ this
    ∧ objs st1 !! r = Some (OGroup (Some <$> JsMap.entries sl))
    ∧ objs st1 !! this = Some (OGroup sl)
    ∧ JsMap.entries (Some <$> JsMap.entries sl) = JsMap.entries sl.
Proof.
  intros Hthis Hwf. eexists _, _. rewrite construct_spec.
  pose proof (lookup_lt_Some _ _ _ Hthis).
  split_and!; [done | lia | | by apply lookup_app_l_Some | apply entries_fmap_Some].
  cbn [objs]. rewrite merge_fresh by done. apply lookup_last_object.
Qed.

(** ** Positions *)

Lemma at_of_Z (l : list val) (z : Z) :
  JsArray.at_ l (num_of_Z z)
  = match position (length l) z with
    | Some p => default VUndef (l !! p)
    | None => VUndef
    end.
Proof.
  unfold JsArray.at_, num_of_Z, JsArray.index, position.
  cbn [JsNum.to_integer_or_infinity]. rewrite trunc_of_Z.
  destruct (decide (0 ≤ z)%Z) as [Hz|Hz].
  - rewrite !(bool_decide_true (0 ≤ z)%Z) by done.
    case_bool_decide as Hin; [done|].
    rewrite (bool_decide_false (_ ≤ z < 0)%Z) by lia.
    rewrite lookup_ge_None_2 by lia. done.
  - rewrite (bool_decide_false (0 ≤ z)%Z) by done.
    rewrite (bool_decide_false (0 ≤ z < _)%Z) by lia.
    case_bool_decide as Hin.
    + by rewrite bool_decide_true by lia.
    + by rewrite bool_decide_false by lia.
Qed.

Lemma position_lt (size : nat) (i : Z) (p : nat) :
  position size i = Some p → p < size.
Proof.
  unfold position. repeat case_bool_decide; intros [= <-]; lia.
Qed.

Section Positions.
Variables (st : store) (this : ref) (sl : list slot).
Hypothesis Hthis : objs st !! this = Some (OGroup sl).

(** X11: For an integer index, [at] and [keyAt] give the value and the key of
    one entry, the one at that position counted from the start, or from
    the end when the index is negative, and [get] of that key is that
    value; outside [-size .. size) both give [undefined]. *)
Theorem at_keyAt_entry (i : Z) :
  ∃ k v,
    Group.at_ (NotFn (n_ i)) this st = (Ok v, st)
    ∧ Group.keyAt (NotFn (n_ i)) this st = (Ok k, st)
    ∧ match position (JsMap.size sl) i with
      | Some p => JsMap.entries sl !! p = Some (k, v)
                  ∧ (JsMap.wf sl → JsMap.get k sl = v)
      | None => k = VUndef ∧ v = VUndef
      end.
Proof using Hthis.
  unfold Group.at_, Group.keyAt, n_. cbn [as_number].
  rewrite (bind_Ok _ _ _ _ _ (spread_values_ok _ _ _ Hthis)).
  rewrite (bind_Ok _ _ _ _ _ (spread_keys_ok _ _ _ Hthis)).
  eexists _, _. split; [done|]. split; [done|].
  rewrite !at_of_Z, length_values, length_keys.
  destruct (position (JsMap.size sl) i) as [p|] eqn:Hp; [|done].
  apply position_lt in Hp.
  destruct (JsMap.entries sl !! p) as [[k v]|] eqn:He.
  - unfold JsMap.keys, JsMap.values. rewrite !list_lookup_fmap, He. cbn.
    split; [done|]. intros Hwf. apply get_entry; [done|].
    by eapply list_elem_of_lookup_2.
  - apply lookup_ge_None in He. unfold JsMap.size in Hp. lia.
Qed.

(** X12: On integers the two variants of [at] and of [keyAt] agree. *)
Theorem at_variants_agree (i : Z) :
  Group2.at_ (NotFn (n_ i)) this st = Group.at_ (NotFn (n_ i)) this st
  ∧ Group2.keyAt (NotFn (n_ i)) this st = Group.keyAt (NotFn (n_ i)) this st.
Proof.
  unfold Group2.at_, Group2.keyAt, Group.at_, Group.keyAt, as_integer.
  assert (JsNum.is_integer (NotFn (n_ i)) = true) as ->; [|done].
  apply is_integer_spec. by exists i.
Qed.

(** X13: [first()] is [at(0)] and [last()] is [at(-1)], in the variant without
    amount and in the parameterised variant called without amount; on an
    empty group they are [undefined]. *)
Theorem first_last_are_at :
  ∃ v0 v1,
    Group2.first this st = (Ok v0, st)
    ∧ Group2.last this st = (Ok v1, st)
    ∧ Group.first (NotFn VUndef) this st = (Ok (Single v0), st)
    ∧ Group.last (NotFn VUndef) this st = (Ok (Single v1), st)
    ∧ Group.at_ (NotFn (n_ 0)) this st = (Ok v0, st)
    ∧ Group.at_ (NotFn (n_ (-1))) this st = (Ok v1, st)
    ∧ (JsMap.size sl = 0 → v0 = VUndef ∧ v1 = VUndef).
Proof using Hthis.
  assert (map_size this st = (Ok (JsMap.size sl), st)) as Hsize.
  { unfold map_size. by rewrite (bind_Ok _ _ _ _ _ (get_group_ok _ _ _ Hthis)). }
  exists (JsArray.index (JsMap.values sl) 0),
    (JsArray.index (JsMap.values sl) (Z.of_nat (length (JsMap.values sl)) - 1)).
  unfold Group2.first, Group2.last, Group.first, Group.last, Group.at_, n_.
  cbn [as_number].
  rewrite !(bind_Ok _ _ _ _ _ (spread_values_ok _ _ _ Hthis)).
  rewrite (bind_Ok _ _ _ _ _ Hsize). unfold ret.
  split; [done|]. split; [by rewrite length_values|].
  split; [done|]. split; [done|]. split; [|split].
  - rewrite at_of_Z. unfold position, JsArray.index.
    destruct (JsMap.values sl) as [|v vs]; [done|]. cbn [length].
    rewrite bool_decide_true by lia. by rewrite bool_decide_true by lia.
  - rewrite at_of_Z. unfold position, JsArray.index.
    rewrite (bool_decide_false (0 ≤ -1 < _)%Z) by lia.
    case_bool_decide as Hin.
    + rewrite bool_decide_true by lia. do 3 f_equal; lia.
    + rewrite bool_decide_false by lia. done.
  - intros Hempty. rewrite <- length_values in Hempty.
    apply nil_length_inv in Hempty. by rewrite Hempty.
Qed.

End Positions.

(** ** [first] and [last] with an amount *)

Section Amounts.
Variables (st : store) (this : ref) (sl : list slot).
Hypothesis Hthis : objs st !! this = Some (OGroup sl).

(** X15: [last(n)] for an integer [n > 1] is an array: the last [n] values up
    to the size, the last [n - size] values between the size and twice
    the size, and all the values from twice the size on. *)
Theorem last_amount_cases (n : Z) :
  (1 < n)%Z →
  ∃ vs,
    Group.last (NotFn (n_ n)) this st = (Ok (Several vs), st)
    ∧ ((n ≤ Z.of_nat (JsMap.size sl))%Z →
         vs = drop (JsMap.size sl - Z.to_nat n) (JsMap.values sl))
    ∧ ((Z.of_nat (JsMap.size sl) < n < 2 * Z.of_nat (JsMap.size sl))%Z →
         vs = drop (2 * JsMap.size sl - Z.to_nat n) (JsMap.values sl)
         ∧ length vs = Z.to_nat n - JsMap.size sl)
    ∧ ((2 * Z.of_nat (JsMap.size sl) ≤ n)%Z → vs = JsMap.values sl).
Proof using Hthis.
  intros Hn.
  destruct (decide (n ≤ Z.of_nat (JsMap.size sl))%Z) as [H1|H1];
    [|destruct (decide (n < 2 * Z.of_nat (JsMap.size sl))%Z) as [H2|H2]].
  - eexists. rewrite (last_amount_within _ _ _ Hthis) by lia.
    split_and!; [done | done | lia | lia].
  - eexists. rewrite (last_amount_between _ _ _ Hthis) by lia.
    split_and!; [done | lia | | lia].
    intros _. split; [done|]. rewrite length_drop, length_values. lia.
  - eexists. rewrite (last_amount_twice _ _ _ Hthis) by lia.
    split_and!; [done | lia | lia | done].
Qed.

(** X16: The amount of [first] may be any number above 1: a fraction counts as
    the integer below it and [Infinity] as everything. *)
Theorem first_amount_any_number (q : Qc) :
  (1 < q)%Qc →
  Group.first (NotFn (VNum (Fin q))) this st
  = (Ok (Several (take (Z.to_nat (Qfloor q)) (JsMap.values sl))), st)
  ∧ (1 ≤ Qfloor q)%Z
  ∧ Group.first (NotFn (VNum PosInf)) this st = (Ok (Several (JsMap.values sl)), st).
Proof using Hthis.
  intros Hq.
  assert (1 ≤ Qfloor q)%Z as Hfloor.
  { change 1%Z with (Qfloor 1). apply Qfloor_resp_le. by apply Qlt_le_weak. }
  unfold Group.first. rewrite !(bind_Ok _ _ _ _ _ (spread_values_ok _ _ _ Hthis)).
  cbn [as_number JsNum.gt num_of_Z].
  rewrite bool_decide_true by done.
  unfold ret, JsArray.slice. cbn [JsNum.to_integer_or_infinity JsArray.clamp].
  assert (∀ len, JsArray.clamp len (JsNum.to_integer_or_infinity (num_of_Z 0)) = 0)
    as Hzero.
  { intros len. unfold num_of_Z. cbn [JsNum.to_integer_or_infinity JsArray.clamp].
    rewrite trunc_of_Z, bool_decide_false by lia. lia. }
  rewrite !Hzero, drop_0, !Nat.sub_0_r. unfold JsNum.trunc.
  rewrite (bool_decide_true (0 ≤ q)%Qc).
  2:{ apply Qclt_le_weak. by etrans; [|exact Hq]. }
  rewrite bool_decide_false by lia.
  split_and!; [|done|].
  - do 3 f_equal. destruct (decide (Qfloor q ≤ Z.of_nat (length (JsMap.values sl)))%Z).
    + f_equal. lia.
    + rewrite !take_ge by lia. done.
  - by rewrite firstn_all.
Qed.

End Amounts.

(** ** How [sweep], [filter], [find] and [map] compose *)

Lemma swept_pointwise (p q : val * val → bool) (sl : list slot) :
  (∀ e, p e = q e) → swept p sl = swept q sl.
Proof.
  intros H. unfold swept. apply list_fmap_ext. intros i [e|] _; [|done].
  by rewrite H.
Qed.

Lemma swept_idem (p : val * val → bool) (sl : list slot) :
  swept p (swept p sl) = swept p sl.
Proof.
  unfold swept. rewrite <- list_fmap_compose. apply list_fmap_ext.
  intros i [e|] _; [|done]. cbn. destruct (p e) eqn:E; [done|]. by rewrite E.
Qed.

Lemma filter_partition (p : val * val → bool) (l : list (val * val)) :
  filter (λ e, p e = true) l ++ filter (λ e, p e = false) l ≡ₚ l.
Proof.
  induction l as [|e l IH]; [done|]. rewrite !filter_cons. destruct (p e).
  - rewrite decide_True, decide_False by done. cbn. by rewrite IH.
  - rewrite decide_False, decide_True by done.
    by rewrite <- Permutation_middle, IH.
Qed.

Lemma head_filter_find (p : val * val → bool) (l : list (val * val)) :
  head (filter (λ e, p e = true) l) = List.find p l.
Proof.
  induction l as [|e l IH]; [done|]. rewrite filter_cons. cbn [List.find].
  destruct (p e); [by rewrite decide_True | by rewrite decide_False].
Qed.

Lemma entries_mapped_id (f : callback) (this : ref) (h : heap) (acc : list slot)
    (es : list (val * val)) :
  (∀ v k t h', f [v; k; t] h' = v) →
  JsMap.entries (mapped f this h acc es) = es.
Proof.
  intros Hid. revert acc. induction es as [|[k v] es IH]; intros acc; [done|].
  cbn [mapped]. by rewrite entries_Some, Hid, IH.
Qed.

Section Compositions.
Variables (st : store) (this : ref) (sl : list slot).
Hypothesis Hthis : objs st !! this = Some (OGroup sl).
Hypothesis Hwf : JsMap.wf sl.
Variable f : callback.
Hypothesis Hpure : pure_predicate f.

Local Abbreviation P := (verdict st this f).

Lemma verdict_pure (st' : store) (this' : ref) (e : val * val) :
  verdict st' this' f e = P e.
Proof using Hpure. apply (f_equal truthy), Hpure. Qed.

(** X18: After [sweep], a second [sweep] with the same predicate removes
    nothing: the heap is as the first left it. *)
Theorem sweep_twice (fuel : nat) :
  length sl < fuel →
  ∃ st1 st2,
    Group.sweep fuel (Fn f) this st = (Ok this, st1)
    ∧ Group.sweep fuel (Fn f) this st1 = (Ok this, st2)
    ∧ objs st2 = objs st1.
Proof using Hthis Hwf Hpure.
  intros Hfuel.
  destruct (sweep_spec st this sl Hthis Hwf f Hpure fuel Hfuel) as (st1 & Hrun1 & Ho1 & _).
  assert (objs st1 !! this = Some (OGroup (swept P sl))) as Hcur
    by (rewrite Ho1; by eapply lookup_put).
  destruct (sweep_spec st1 this _ Hcur (wf_swept _ _ Hwf) f Hpure fuel)
    as (st2 & Hrun2 & Ho2 & _).
  { by rewrite length_swept. }
  exists st1, st2. split_and!; [done | done |].
  rewrite Ho2, (swept_pointwise _ P) by apply verdict_pure.
  rewrite swept_idem. by apply list_insert_id.
Qed.

(** X19: [filter] and then [sweep] with the same predicate split the entries
    of the receiver: the new group holds those the predicate accepts, the
    receiver is left with the others, and [sweep] does not touch the new
    group. *)
Theorem filter_sweep_partition (fuel : nat) :
  length sl < fuel →
  ∃ r st1 st2 kept left,
    Group.filter fuel (Fn f) this st = (Ok r, st1)
    ∧ Group.sweep fuel (Fn f) this st1 = (Ok this, st2)
    ∧ objs st2 !! r = Some (OGroup kept)
    ∧ objs st2 !! this = Some (OGroup left)
    ∧ JsMap.entries kept = filter (λ e, P e = true) (JsMap.entries sl)
    ∧ JsMap.entries left = filter (λ e, P e = false) (JsMap.entries sl)
    ∧ JsMap.entries kept ++ JsMap.entries left ≡ₚ JsMap.entries sl
    ∧ JsMap.size kept + JsMap.size left = JsMap.size sl.
Proof using Hthis Hwf Hpure.
  intros Hfuel.
  destruct (filter_spec st this sl Hthis Hwf f Hpure fuel Hfuel) as (st1 & Hrun1 & Ho1 & _).
  pose proof (lookup_lt_Some _ _ _ Hthis) as Hlt.
  assert (objs st1 !! this = Some (OGroup sl)) as Hcur
    by (rewrite Ho1; by apply lookup_app_l_Some).
  destruct (sweep_spec st1 this sl Hcur Hwf f Hpure fuel Hfuel) as (st2 & Hrun2 & Ho2 & _).
  rewrite (swept_pointwise _ P) in Ho2 by apply verdict_pure.
  eexists _, st1, st2, _, (swept P sl).
  split; [exact Hrun1|]. split; [exact Hrun2|].
  assert (JsMap.entries (Some <$> filter (λ e, P e = true) (JsMap.entries sl))
          ++ JsMap.entries (swept P sl) ≡ₚ JsMap.entries sl) as Hperm.
  { rewrite entries_fmap_Some, entries_swept. apply filter_partition. }
  split_and!.
  - rewrite Ho2, list_lookup_insert_ne by lia. rewrite Ho1. apply lookup_last_object.
  - rewrite Ho2. by eapply lookup_put.
  - apply entries_fmap_Some.
  - apply entries_swept.
  - exact Hperm.
  - unfold JsMap.size. rewrite <- length_app. by rewrite Hperm.
Qed.

(** X20: [find] returns what [first()] returns on the group that [filter]
    gives with the same predicate. *)
Theorem find_is_first_of_filter (fuel : nat) :
  length sl < fuel →
  ∃ v r st0 st1,
    Group.find fuel (Fn f) this st = (Ok v, st0)
    ∧ Group.filter fuel (Fn f) this st = (Ok r, st1)
    ∧ Group.first (NotFn VUndef) r st1 = (Ok (Single v), st1)
    ∧ Group2.first r st1 = (Ok v, st1).
Proof using Hthis Hwf Hpure.
  intros Hfuel.
  destruct (find_spec st this sl Hthis f fuel Hfuel) as (st0 & Hfind & _).
  destruct (filter_spec st this sl Hthis Hwf f Hpure fuel Hfuel) as (st1 & Hrun1 & Ho1 & _).
  assert (objs st1 !! length (objs st)
          = Some (OGroup (Some <$> filter (λ e, P e = true) (JsMap.entries sl)))) as Hcur
    by (rewrite Ho1; apply lookup_last_object).
  eexists _, _, st0, st1. split; [exact Hfind|]. split; [exact Hrun1|].
  unfold Group.first, Group2.first. cbn [as_number].
  rewrite !(bind_Ok _ _ _ _ _ (spread_values_ok _ _ _ Hcur)). unfold ret.
  assert (JsArray.index
            (JsMap.values (Some <$> filter (λ e, P e = true) (JsMap.entries sl))) 0
          = default VUndef (snd <$> List.find P (JsMap.entries sl))) as ->; [|done].
  unfold JsMap.values. rewrite entries_fmap_Some, <- head_filter_find.
  unfold JsArray.index. rewrite bool_decide_true by lia.
  by destruct (filter _ _).
Qed.

End Compositions.

(** X21: [map] with a function that returns the value it is given copies the
    group: the new group has the entries of the receiver, in order. *)
Theorem map_identity_copies (st : store) (this : ref) (sl : list slot)
    (f : callback) (fuel : nat) :
  objs st !! this = Some (OGroup sl) → JsMap.wf sl →
  (∀ v k t h, f [v; k; t] h = v) →
  length sl < fuel →
  ∃ r st1 sl1,
    Group.map fuel (Fn f) this st = (Ok r, st1)
    ∧ r ≠ this
    ∧ objs st1 !! r = Some (OGroup sl1)
    ∧ JsMap.entries sl1 = JsMap.entries sl.
Proof.
  intros Hthis Hwf Hid Hfuel.
  destruct (map_spec st this sl Hthis Hwf f fuel Hfuel) as (st1 & Hrun & Ho & _).
  pose proof (lookup_lt_Some _ _ _ Hthis).
  eexists _, st1, _. split; [exact Hrun|]. split; [lia|]. split.
  - rewrite Ho. apply lookup_last_object.
  - by apply entries_mapped_id.
Qed.

(** ** The invariant of the Map across the operations *)

Lemma wf_heap_insert (h : heap) (r : ref) (sl : list slot) :
  wf_heap h → JsMap.wf sl → wf_heap (<[r := OGroup sl]> h).
Proof.
  intros Hh Hsl r0 sl0 Hr0. destruct (decide (r = r0)) as [<-|Hne].
  - destruct (decide (r < length h)).
    + rewrite list_lookup_insert_eq in Hr0 by done. by injection Hr0 as <-.
    + rewrite list_insert_ge in Hr0 by lia. by eapply Hh.
  - rewrite list_lookup_insert_ne in Hr0 by done. by eapply Hh.
Qed.

Lemma wf_heap_alloc (h : heap) (sl : list slot) :
  wf_heap h → JsMap.wf sl → wf_heap (h ++ [OGroup sl]).
Proof.
  intros Hh Hsl r0 sl0 Hr0. apply lookup_app_Some in Hr0 as [Hr0|[_ Hr0]].
  - by eapply Hh.
  - apply list_lookup_singleton_Some in Hr0 as [_ Hr0]. by injection Hr0 as <-.
Qed.

Section Invariant.
Variables (st : store) (this : ref) (sl : list slot).
Hypothesis Hthis : objs st !! this = Some (OGroup sl).
Hypothesis Hheap : wf_heap (objs st).

(** X22: [fallback] keeps the invariant of the Map in every group of the heap;
    after it the group has the key, [get] of the key is the value
    returned, and the size has grown by one exactly when the key was
    absent. *)
Theorem fallback_then_lookup (g : callback) (k : val) :
  ∃ v st1 sl1,
    Group.fallback k (Fn g) this st = (Ok v, st1)
    ∧ objs st1 !! this = Some (OGroup sl1)
    ∧ wf_heap (objs st1)
    ∧ JsMap.has k sl1 = true
    ∧ JsMap.get k sl1 = v
    ∧ JsMap.size sl1 = JsMap.size sl + (if JsMap.has k sl then 0 else 1)
    ∧ Group.hasAll (KeyArray [k]) this st1 = (Ok true, st1).
Proof using Hthis Hheap.
  destruct (JsMap.has k sl) eqn:Hk.
  - exists (JsMap.get k sl), st, sl. rewrite (fallback_present _ _ _ Hthis) by done.
    split_and!; [done | done | done | done | done | lia |].
    cbn [Group.hasAll]. rewrite (array_every_has _ _ _ Hthis). cbn. by rewrite Hk.
  - eexists _, _, _. rewrite (fallback_absent _ _ _ Hthis) by done.
    pose proof (inserted_lookup _ _ _ Hthis g k) as Hcur.
    split; [done|]. split; [exact Hcur|].
    rewrite <- (set_absent k _ sl) in Hcur |- * by done. split_and!.
    + unfold inserted. cbn [objs]. rewrite <- (set_absent k _ sl) by done.
      apply wf_heap_insert; [done|]. apply wf_set. by eapply Hheap.
    + apply has_set.
    + apply get_set.
    + unfold JsMap.size. rewrite set_absent, entries_app, length_app by done.
      done.
    + cbn [Group.hasAll]. rewrite (array_every_has _ _ _ Hcur). cbn.
      by rewrite has_set.
Qed.

(** X23: [sweep] and [filter] with a pure predicate, [map] with any function
    and the constructor keep the invariant of the Map in every group of
    the heap. *)
Theorem loops_keep_wf (f : callback) (fuel : nat) (pairs : list (val * val)) :
  length sl < fuel →
  (pure_predicate f →
     wf_heap (objs (Group.sweep fuel (Fn f) this st).2)
     ∧ wf_heap (objs (Group.filter fuel (Fn f) this st).2))
  ∧ wf_heap (objs (Group.map fuel (Fn f) this st).2)
  ∧ wf_heap (objs (Group.construct (Some pairs) st).2).
Proof using Hthis Hheap.
  intros Hfuel. pose proof (Hheap _ _ Hthis) as Hwf. split_and!.
  - intros Hpure. split.
    + destruct (sweep_spec st this sl Hthis Hwf f Hpure fuel Hfuel) as (st1 & -> & Ho & _).
      cbn [snd]. rewrite Ho. apply wf_heap_insert; [done | by apply wf_swept].
    + destruct (filter_spec st this sl Hthis Hwf f Hpure fuel Hfuel) as (st1 & -> & Ho & _).
      cbn [snd]. rewrite Ho. apply wf_heap_alloc; [done|].
      unfold JsMap.wf, JsMap.keys. rewrite entries_fmap_Some.
      eapply sublist_NoDup; [exact Hwf|]. apply fmap_sublist, sublist_filter.
  - destruct (map_spec st this sl Hthis Hwf f fuel Hfuel) as (st1 & -> & Ho & _).
    cbn [snd]. rewrite Ho. apply wf_heap_alloc; [done|].
    unfold JsMap.wf. by rewrite keys_mapped.
  - rewrite construct_spec. cbn [snd objs].
    apply wf_heap_alloc; [done|]. apply wf_merge, wf_nil.
Qed.

End Invariant.

(** ** More on [concact] *)

Lemma keys_merge_prefix (tl : list slot) (es : list (val * val)) :
  JsMap.keys tl `prefix_of` JsMap.keys (merge tl es).
Proof.
  revert tl. induction es as [|e es IH]; intros tl; [done|].
  cbn [merge foldl]. fold (merge (JsMap.set e.1 e.2 tl) es).
  etrans; [|apply IH]. rewrite keys_set_present.
  destruct (JsMap.has e.1 tl); [done | by apply prefix_app_r].
Qed.

Lemma last_bound_snoc (k : val) (es : list (val * val)) (e : val * val) :
  last_bound k (es ++ [e]) = if decide (e.1 = k) then Some e.2 else last_bound k es.
Proof. unfold last_bound. by rewrite foldl_app. Qed.

Lemma revalued_snoc_absent (es : list (val * val)) (k v : val) (sl : list slot) :
  k ∉ JsMap.keys sl → revalued (es ++ [(k, v)]) sl = revalued es sl.
Proof.
  induction sl as [|[[k' v']|] sl IH]; intros Hk; [done | |].
  - rewrite keys_Some in Hk. apply not_elem_of_cons in Hk as [Hne Hk].
    unfold revalued in *. rewrite !fmap_cons, IH by done.
    rewrite last_bound_snoc. cbn [fst]. by rewrite decide_False.
  - rewrite keys_None in Hk. unfold revalued in *. by rewrite !fmap_cons, IH.
Qed.

Lemma set_revalued (es : list (val * val)) (k v : val) (sl : list slot) :
  JsMap.wf sl → JsMap.has k sl = true →
  JsMap.set k v (revalued es sl) = revalued (es ++ [(k, v)]) sl.
Proof.
  induction sl as [|[[k' v']|] sl IH]; intros Hwf Hk; [done | |].
  - unfold JsMap.wf in Hwf. rewrite keys_Some in Hwf.
    apply NoDup_cons in Hwf as [Hfresh Hwf].
    change (revalued ?l (Some (k', v') :: sl))
      with (Some (k', default v' (last_bound k' l)) :: revalued l sl).
    cbn [JsMap.set]. rewrite last_bound_snoc. cbn [fst snd JsMap.has] in *.
    destruct (decide (k' = k)) as [->|Hne].
    + rewrite decide_True by done. by rewrite revalued_snoc_absent.
    + rewrite decide_False by done. by rewrite IH.
  - change (revalued ?l (None :: sl)) with (None :: revalued l sl).
    cbn [JsMap.set JsMap.has] in *. rewrite IH; [done | | done].
    unfold JsMap.wf in *. by rewrite keys_None in Hwf.
Qed.

Lemma revalued_nil (sl : list slot) : revalued [] sl = sl.
Proof.
  unfold revalued. rewrite <- (list_fmap_id sl) at 2. apply list_fmap_ext.
  by intros i [[k v]|] _.
Qed.

(** Merging entries whose keys are all held changes values only. *)
Lemma merge_present (sl : list slot) (es : list (val * val)) :
  JsMap.wf sl → (∀ k, k ∈ es.*1 → JsMap.has k sl = true) →
  merge sl es = revalued es sl.
Proof.
  intros Hwf. induction es as [|[k v] es IH] using rev_ind; intros Hks.
  - by rewrite revalued_nil.
  - rewrite merge_snoc. cbn [fst snd]. rewrite IH.
    + apply set_revalued; [done|]. apply Hks. rewrite fmap_app.
      apply elem_of_app. right. apply elem_of_cons. by left.
    + intros k' Hk'. apply Hks. rewrite fmap_app. apply elem_of_app. by left.
Qed.

(** Merging the same entries a second time changes nothing. *)
Lemma merge_twice (tl : list slot) (es : list (val * val)) :
  JsMap.wf tl → merge (merge tl es) es = merge tl es.
Proof.
  intros Hwf. pose proof (wf_merge tl es Hwf) as Hwf1.
  rewrite (merge_present (merge tl es) es); [|done|].
  - unfold revalued. rewrite <- (list_fmap_id (merge tl es)) at 2.
    apply list_fmap_ext. intros i [[k v]|] Hi; [|done]. cbn. do 2 f_equal.
    assert (JsMap.get k (merge tl es) = v) as Hget.
    { apply get_entry; [done|]. unfold JsMap.entries.
      apply list_elem_of_omap. exists (Some (k, v)). split; [|done].
      by eapply list_elem_of_lookup_2. }
    rewrite get_merge in Hget. by destruct (last_bound k es).
  - intros k Hk. rewrite has_merge. rewrite (bool_decide_true (k ∈ es.*1)) by done.
    apply orb_true_r.
Qed.

Lemma elem_of_sources (h : heap) (this g : ref) (gl : list slot) (groups : list arg)
    (e : val * val) :
  NotFn (VRef g) ∈ groups → g ≠ this → h !! g = Some (OGroup gl) →
  e ∈ JsMap.entries gl → e ∈ sources h this groups.
Proof.
  intros Hg Hne Hgl He. unfold sources. apply list_elem_of_bind.
  exists (NotFn (VRef g)). split; [|done].
  by rewrite decide_False, Hgl.
Qed.

Section ConcactMore.
Variables (st : store) (this : ref) (tl : list slot) (groups : list arg).
Hypothesis Hthis : objs st !! this = Some (OGroup tl).
Hypothesis Hheap : wf_heap (objs st).
Hypothesis Hgroups : forallb (instanceof_Group (objs st)) groups = true.

(** X24: [concact] keeps the invariant of the Map and moves no entry of the
    receiver: the keys it had stay first, in their order; afterwards the
    receiver has every key of every argument. *)
Theorem concact_keeps_positions (fuel : nat) :
  records_bound (objs st) this tl groups < fuel →
  ∃ st1 tl1,
    Group.concact fuel groups this st = (Ok this, st1)
    ∧ objs st1 !! this = Some (OGroup tl1)
    ∧ wf_heap (objs st1)
    ∧ JsMap.keys tl `prefix_of` JsMap.keys tl1
    ∧ JsMap.size tl ≤ JsMap.size tl1
    ∧ ∀ g gl, NotFn (VRef g) ∈ groups → objs st !! g = Some (OGroup gl) →
        Group.hasAll (KeyArray (JsMap.keys gl)) this st1 = (Ok true, st1).
Proof using Hthis Hheap Hgroups.
  intros Hfuel. pose proof (Hheap _ _ Hthis) as Hwf.
  destruct (concact_loop this fuel groups st tl Hthis Hwf Hgroups Hfuel)
    as (st1 & Hrun & Ho & Hc).
  set (tl1 := merge tl (sources (objs st) this groups)) in *.
  assert (objs st1 !! this = Some (OGroup tl1)) as Hcur
    by (rewrite Ho; by eapply lookup_put).
  exists st1, tl1. split_and!.
  - unfold Group.concact.
    assert (get_heap st = (Ok (objs st), st)) as Hh by done.
    rewrite (bind_Ok _ _ _ _ _ Hh), Hgroups. cbn [negb].
    by rewrite (bind_Ok _ _ _ _ _ Hrun).
  - done.
  - rewrite Ho. apply wf_heap_insert; [done | by apply wf_merge].
  - apply keys_merge_prefix.
  - rewrite <- !length_keys. apply prefix_length, keys_merge_prefix.
  - intros g gl Hg Hgl. cbn [Group.hasAll]. rewrite (array_every_has _ _ _ Hcur).
    do 2 f_equal. apply forallb_forall. intros k Hk%list_elem_of_In.
    destruct (decide (g = this)) as [->|Hne].
    + rewrite Hthis in Hgl. injection Hgl as <-. apply has_true.
      eapply elem_of_prefix; [exact Hk | apply keys_merge_prefix].
    + subst tl1. rewrite has_merge. rewrite (bool_decide_true (k ∈ _)); [apply orb_true_r|].
      unfold JsMap.keys in Hk. apply list_elem_of_fmap in Hk as (e & -> & He).
      apply list_elem_of_fmap. exists e. split; [done|]. by eapply elem_of_sources.
Qed.

(** X25: Called a second time with the same arguments, [concact] changes
    nothing. *)
Theorem concact_twice (fuel : nat) :
  length tl + 2 * length (sources (objs st) this groups) < fuel →
  longest (objs st) groups < fuel →
  ∃ st1 st2,
    Group.concact fuel groups this st = (Ok this, st1)
    ∧ Group.concact fuel groups this st1 = (Ok this, st2)
    ∧ objs st2 = objs st1.
Proof using Hthis Hheap Hgroups.
  intros Hfuel1 Hfuel2. pose proof (Hheap _ _ Hthis) as Hwf.
  destruct (concact_loop this fuel groups st tl Hthis Hwf Hgroups)
    as (st1 & Hrun1 & Ho1 & _).
  { unfold records_bound. lia. }
  set (S := sources (objs st) this groups) in *.
  assert (objs st1 !! this = Some (OGroup (merge tl S))) as Hcur
    by (rewrite Ho1; by eapply lookup_put).
  assert (forallb (instanceof_Group (objs st1)) groups = true) as Hgroups1.
  { rewrite Ho1. erewrite forallb_pointwise; [exact Hgroups|].
    intros a. by eapply instanceof_insert. }
  destruct (concact_loop this fuel groups st1 (merge tl S) Hcur (wf_merge _ _ Hwf) Hgroups1)
    as (st2 & Hrun2 & Ho2 & _).
  { unfold records_bound. rewrite Ho1, sources_insert. fold S.
    pose proof (longest_insert this (objs st) (merge tl S) groups).
    pose proof (length_merge tl S). lia. }
  assert (∀ s, get_heap s = (Ok (objs s), s)) as Hh by done.
  exists st1, st2. split_and!.
  - unfold Group.concact. rewrite (bind_Ok _ _ _ _ _ (Hh st)), Hgroups. cbn [negb].
    by rewrite (bind_Ok _ _ _ _ _ Hrun1).
  - unfold Group.concact. rewrite (bind_Ok _ _ _ _ _ (Hh st1)), Hgroups1. cbn [negb].
    by rewrite (bind_Ok _ _ _ _ _ Hrun2).
  - assert (sources (objs st1) this groups = S) as HS
      by (rewrite Ho1; apply sources_insert).
    rewrite Ho2, HS, merge_twice by done. by apply list_insert_id.
Qed.

End ConcactMore.

(** ** The further theorems at concrete inputs *)

Lemma wf_heap_abc : wf_heap (objs st_abc).
Proof.
  intros [|r] sl H; cbn in H; [|done]. injection H as <-. apply wf_abc.
Qed.

Lemma wf_heap_a_ab : wf_heap (objs st_a_ab).
Proof.
  intros [|[|r]] sl H; cbn in H; [| |done]; injection H as <-;
    apply (bool_decide_unpack _); by vm_compute.
Qed.

Lemma each_visits_all_witness :
  objs st_abc !! 0 = Some (OGroup abc)
  ∧ length abc < 4
  ∧ ∃ st', Group.each 4 (Fn gt1) 0 st_abc = (Ok 0, st')
           ∧ objs st' = objs st_abc
           ∧ calls st' = calls st_abc + JsMap.size abc.
Proof.
  split_and!; [done | cbn; lia |].
  apply (each_visits_all st_abc 0 abc eq_refl gt1 4). cbn; lia.
Defined.

Lemma find_first_match_witness :
  objs st_abc !! 0 = Some (OGroup abc)
  ∧ length abc < 4
  ∧ ∃ st', objs st' = objs st_abc
           ∧ Group.find 4 (Fn gt1) 0 st_abc = (Ok (n_ 2), st').
Proof.
  split_and!; [done | cbn; lia |].
  destruct (find_first_match st_abc 0 abc eq_refl gt1 4) as (st' & Ho & _ & Hfound);
    [cbn; lia|].
  exists st'. split; [done|].
  apply (Hfound 1 (VStr "b") (n_ 2)); [done | by vm_compute |].
  intros [|j] e Hj He; [|lia]. cbn in He. injection He as <-. by vm_compute.
Defined.

Lemma findKey_names_find_witness :
  objs st_abc !! 0 = Some (OGroup abc)
  ∧ JsMap.wf abc
  ∧ length abc < 4
  ∧ ∃ k v st1 st2,
      Group.findKey 4 (Fn gt1) 0 st_abc = (Ok k, st1)
      ∧ Group.find 4 (Fn gt1) 0 st_abc = (Ok v, st2)
      ∧ (existsb (verdict st_abc 0 gt1) (JsMap.entries abc) = true
         → JsMap.has k abc = true ∧ JsMap.get k abc = v
           ∧ verdict st_abc 0 gt1 (k, v) = true)
      ∧ (existsb (verdict st_abc 0 gt1) (JsMap.entries abc) = false
         → k = VUndef ∧ v = VUndef).
Proof.
  split_and!; [done | apply wf_abc | cbn; lia |].
  apply (findKey_names_find st_abc 0 abc eq_refl gt1 4 wf_abc). cbn; lia.
Defined.

Lemma some_every_decide_witness :
  objs st_abc !! 0 = Some (OGroup abc)
  ∧ length abc < 4
  ∧ ∃ st1 st2,
      Group.some 4 (Fn gt1) 0 st_abc
      = (Ok (existsb (verdict st_abc 0 gt1) (JsMap.entries abc)), st1)
      ∧ Group.every 4 (Fn gt1) 0 st_abc
        = (Ok (forallb (verdict st_abc 0 gt1) (JsMap.entries abc)), st2)
      ∧ objs st1 = objs st_abc ∧ objs st2 = objs st_abc
      ∧ (JsMap.size abc = 0 →
           Group.some 4 (Fn gt1) 0 st_abc = (Ok false, st1)
           ∧ Group.every 4 (Fn gt1) 0 st_abc = (Ok true, st2)).
Proof.
  split_and!; [done | cbn; lia |].
  apply (some_every_decide st_abc 0 abc eq_refl gt1 4). cbn; lia.
Defined.

Lemma every_not_some_not_witness :
  objs st_abc !! 0 = Some (OGroup abc)
  ∧ length abc < 4
  ∧ ∃ b st1 st2,
      Group.every 4 (Fn gt1) 0 st_abc = (Ok b, st1)
      ∧ Group.some 4 (Fn (negated gt1)) 0 st_abc = (Ok (negb b), st2).
Proof.
  split_and!; [done | cbn; lia |].
  apply (every_not_some_not st_abc 0 abc eq_refl gt1 4). cbn; lia.
Defined.

Lemma hasAll_hasAny_decide_witness :
  objs st_abc !! 0 = Some (OGroup abc)
  ∧ ∃ b1 b2,
      Group.hasAll (KeyArray [VStr "a"; VStr "z"]) 0 st_abc = (Ok b1, st_abc)
      ∧ Group.hasAny (KeyArray [VStr "a"; VStr "z"]) 0 st_abc = (Ok b2, st_abc)
      ∧ (b1 = true ↔ ∀ k, k ∈ [VStr "a"; VStr "z"] → k ∈ JsMap.keys abc)
      ∧ (b2 = true ↔ ∃ k, k ∈ [VStr "a"; VStr "z"] ∧ k ∈ JsMap.keys abc).
Proof.
  split; [done|].
  exact (hasAll_hasAny_decide st_abc 0 abc eq_refl [VStr "a"; VStr "z"]).
Defined.

Lemma hasAll_own_keys_witness :
  objs st_abc !! 0 = Some (OGroup abc)
  ∧ Group.hasAll (KeyArray (JsMap.keys abc)) 0 st_abc = (Ok true, st_abc)
  ∧ Group.hasAny (KeyArray (JsMap.keys abc)) 0 st_abc
    = (Ok (negb (bool_decide (JsMap.size abc = 0))), st_abc).
Proof.
  split; [done|]. exact (hasAll_own_keys st_abc 0 abc eq_refl).
Defined.

Lemma construct_copies_witness :
  objs st_abc !! 0 = Some (OGroup abc)
  ∧ JsMap.wf abc
  ∧ ∃ r st1,
      Group.construct (Some (JsMap.entries abc)) st_abc = (Ok r, st1)
      ∧ r ≠ 0
      ∧ objs st1 !! r = Some (OGroup (Some <$> JsMap.entries abc))
      ∧ objs st1 !! 0 = Some (OGroup abc)
      ∧ JsMap.entries (Some <$> JsMap.entries abc) = JsMap.entries abc.
Proof.
  split_and!; [done | apply wf_abc |].
  exact (construct_copies 0 abc st_abc eq_refl wf_abc).
Defined.

Lemma at_keyAt_entry_witness :
  objs st_abc !! 0 = Some (OGroup abc)
  ∧ ∃ k v,
      Group.at_ (NotFn (n_ (-1))) 0 st_abc = (Ok v, st_abc)
      ∧ Group.keyAt (NotFn (n_ (-1))) 0 st_abc = (Ok k, st_abc)
      ∧ match position (JsMap.size abc) (-1) with
        | Some p => JsMap.entries abc !! p = Some (k, v)
                    ∧ (JsMap.wf abc → JsMap.get k abc = v)
        | None => k = VUndef ∧ v = VUndef
        end.
Proof.
  split; [done|]. exact (at_keyAt_entry st_abc 0 abc eq_refl (-1)%Z).
Defined.

Lemma first_last_are_at_witness :
  objs st_abc !! 0 = Some (OGroup abc)
  ∧ ∃ v0 v1,
      Group2.first 0 st_abc = (Ok v0, st_abc)
      ∧ Group2.last 0 st_abc = (Ok v1, st_abc)
      ∧ Group.first (NotFn VUndef) 0 st_abc = (Ok (Single v0), st_abc)
      ∧ Group.last (NotFn VUndef) 0 st_abc = (Ok (Single v1), st_abc)
      ∧ Group.at_ (NotFn (n_ 0)) 0 st_abc = (Ok v0, st_abc)
      ∧ Group.at_ (NotFn (n_ (-1))) 0 st_abc = (Ok v1, st_abc)
      ∧ (JsMap.size abc = 0 → v0 = VUndef ∧ v1 = VUndef).
Proof.
  split; [done|]. exact (first_last_are_at st_abc 0 abc eq_refl).
Defined.

Lemma first_amount_witness :
  objs st_abc !! 0 = Some (OGroup abc)
  ∧ (1 < 2)%Z
  ∧ Group.first (NotFn (n_ 2)) 0 st_abc
    = (Ok (Several (take (Z.to_nat 2 `min` JsMap.size abc) (JsMap.values abc))), st_abc).
Proof.
  split_and!; [done | lia |].
  apply (first_amount st_abc 0 abc eq_refl 2%Z). lia.
Defined.

Lemma last_amount_cases_witness :
  objs st_abc !! 0 = Some (OGroup abc)
  ∧ (1 < 4)%Z
  ∧ ∃ vs,
      Group.last (NotFn (n_ 4)) 0 st_abc = (Ok (Several vs), st_abc)
      ∧ ((4 ≤ Z.of_nat (JsMap.size abc))%Z →
           vs = drop (JsMap.size abc - Z.to_nat 4) (JsMap.values abc))
      ∧ ((Z.of_nat (JsMap.size abc) < 4 < 2 * Z.of_nat (JsMap.size abc))%Z →
           vs = drop (2 * JsMap.size abc - Z.to_nat 4) (JsMap.values abc)
           ∧ length vs = Z.to_nat 4 - JsMap.size abc)
      ∧ ((2 * Z.of_nat (JsMap.size abc) ≤ 4)%Z → vs = JsMap.values abc).
Proof.
  split_and!; [done | lia |].
  apply (last_amount_cases st_abc 0 abc eq_refl 4%Z). lia.
Defined.

Lemma first_amount_any_number_witness :
  objs st_abc !! 0 = Some (OGroup abc)
  ∧ (1 < two_and_a_half)%Qc
  ∧ Group.first (NotFn (VNum (Fin two_and_a_half))) 0 st_abc
    = (Ok (Several (take (Z.to_nat (Qfloor two_and_a_half)) (JsMap.values abc))), st_abc)
  ∧ (1 ≤ Qfloor two_and_a_half)%Z
  ∧ Group.first (NotFn (VNum PosInf)) 0 st_abc = (Ok (Several (JsMap.values abc)), st_abc).
Proof.
  split; [done|]. split; [by vm_compute|].
  apply (first_amount_any_number st_abc 0 abc eq_refl two_and_a_half). by vm_compute.
Defined.

Lemma at_not_integer_throws2_witness :
  (¬ ∃ z : Z, NotFn one_and_a_half = NotFn (VNum (num_of_Z z)))
  ∧ Group2.at_ (NotFn one_and_a_half) 0 st_abc
    = (Throw (GroupError "Invalid index parameter. Expected an integer number."
                (OfArg (NotFn one_and_a_half))), st_abc).
Proof.
  assert (¬ ∃ z : Z, NotFn one_and_a_half = NotFn (VNum (num_of_Z z))) as H
    by (apply as_integer_None; reflexivity).
  split; [exact H|].
  apply (at_not_integer_throws2 st_abc 0 (NotFn one_and_a_half) H).
Defined.

Lemma sweep_twice_witness :
  objs st_abc !! 0 = Some (OGroup abc)
  ∧ JsMap.wf abc
  ∧ pure_predicate gt1
  ∧ length abc < 4
  ∧ ∃ st1 st2,
      Group.sweep 4 (Fn gt1) 0 st_abc = (Ok 0, st1)
      ∧ Group.sweep 4 (Fn gt1) 0 st1 = (Ok 0, st2)
      ∧ objs st2 = objs st1.
Proof.
  split_and!; [done | apply wf_abc | apply gt1_pure | cbn; lia |].
  apply (sweep_twice st_abc 0 abc eq_refl wf_abc gt1 gt1_pure 4). cbn; lia.
Defined.

Lemma filter_sweep_partition_witness :
  objs st_abc !! 0 = Some (OGroup abc)
  ∧ JsMap.wf abc
  ∧ pure_predicate gt1
  ∧ length abc < 4
  ∧ ∃ r st1 st2 kept left,
      Group.filter 4 (Fn gt1) 0 st_abc = (Ok r, st1)
      ∧ Group.sweep 4 (Fn gt1) 0 st1 = (Ok 0, st2)
      ∧ objs st2 !! r = Some (OGroup kept)
      ∧ objs st2 !! 0 = Some (OGroup left)
      ∧ JsMap.entries kept
        = filter (λ e, verdict st_abc 0 gt1 e = true) (JsMap.entries abc)
      ∧ JsMap.entries left
        = filter (λ e, verdict st_abc 0 gt1 e = false) (JsMap.entries abc)
      ∧ JsMap.entries kept ++ JsMap.entries left ≡ₚ JsMap.entries abc
      ∧ JsMap.size kept + JsMap.size left = JsMap.size abc.
Proof.
  split_and!; [done | apply wf_abc | apply gt1_pure | cbn; lia |].
  apply (filter_sweep_partition st_abc 0 abc eq_refl wf_abc gt1 gt1_pure 4). cbn; lia.
Defined.

Lemma find_is_first_of_filter_witness :
  objs st_abc !! 0 = Some (OGroup abc)
  ∧ JsMap.wf abc
  ∧ pure_predicate gt1
  ∧ length abc < 4
  ∧ ∃ v r st0 st1,
      Group.find 4 (Fn gt1) 0 st_abc = (Ok v, st0)
      ∧ Group.filter 4 (Fn gt1) 0 st_abc = (Ok r, st1)
      ∧ Group.first (NotFn VUndef) r st1 = (Ok (Single v), st1)
      ∧ Group2.first r st1 = (Ok v, st1).
Proof.
  split_and!; [done | apply wf_abc | apply gt1_pure | cbn; lia |].
  apply (find_is_first_of_filter st_abc 0 abc eq_refl wf_abc gt1 gt1_pure 4). cbn; lia.
Defined.

Lemma map_identity_copies_witness :
  objs st_abc !! 0 = Some (OGroup abc)
  ∧ JsMap.wf abc
  ∧ (∀ v k t h, same_value [v; k; t] h = v)
  ∧ length abc < 4
  ∧ ∃ r st1 sl1,
      Group.map 4 (Fn same_value) 0 st_abc = (Ok r, st1)
      ∧ r ≠ 0
      ∧ objs st1 !! r = Some (OGroup sl1)
      ∧ JsMap.entries sl1 = JsMap.entries abc.
Proof.
  split_and!; [done | apply wf_abc | done | cbn; lia |].
  apply (map_identity_copies st_abc 0 abc same_value 4 eq_refl wf_abc); [done|].
  cbn; lia.
Defined.

Lemma fallback_then_lookup_witness :
  objs st_abc !! 0 = Some (OGroup abc)
  ∧ wf_heap (objs st_abc)
  ∧ ∃ v st1 sl1,
      Group.fallback (VStr "d") (Fn four) 0 st_abc = (Ok v, st1)
      ∧ objs st1 !! 0 = Some (OGroup sl1)
      ∧ wf_heap (objs st1)
      ∧ JsMap.has (VStr "d") sl1 = true
      ∧ JsMap.get (VStr "d") sl1 = v
      ∧ JsMap.size sl1 = JsMap.size abc + (if JsMap.has (VStr "d") abc then 0 else 1)
      ∧ Group.hasAll (KeyArray [VStr "d"]) 0 st1 = (Ok true, st1).
Proof.
  split_and!; [done | apply wf_heap_abc |].
  exact (fallback_then_lookup st_abc 0 abc eq_refl wf_heap_abc four (VStr "d")).
Defined.

Lemma loops_keep_wf_witness :
  objs st_abc !! 0 = Some (OGroup abc)
  ∧ wf_heap (objs st_abc)
  ∧ length abc < 4
  ∧ wf_heap (objs (Group.map 4 (Fn gt1) 0 st_abc).2).
Proof.
  split_and!; [done | apply wf_heap_abc | cbn; lia |].
  apply (loops_keep_wf st_abc 0 abc eq_refl wf_heap_abc gt1 4 []). cbn; lia.
Defined.

Lemma concact_keeps_positions_witness :
  objs st_a_ab !! 0 = Some (OGroup [Some (VStr "a", n_ 1)])
  ∧ wf_heap (objs st_a_ab)
  ∧ forallb (instanceof_Group (objs st_a_ab)) [NotFn (VRef 1)] = true
  ∧ records_bound (objs st_a_ab) 0 [Some (VStr "a", n_ 1)] [NotFn (VRef 1)] < 4
  ∧ ∃ st1 tl1,
      Group.concact 4 [NotFn (VRef 1)] 0 st_a_ab = (Ok 0, st1)
      ∧ objs st1 !! 0 = Some (OGroup tl1)
      ∧ wf_heap (objs st1)
      ∧ JsMap.keys [Some (VStr "a", n_ 1)] `prefix_of` JsMap.keys tl1
      ∧ JsMap.size [Some (VStr "a", n_ 1)] ≤ JsMap.size tl1
      ∧ ∀ g gl, NotFn (VRef g) ∈ [NotFn (VRef 1)] → objs st_a_ab !! g = Some (OGroup gl) →
          Group.hasAll (KeyArray (JsMap.keys gl)) 0 st1 = (Ok true, st1).
Proof.
  split_and!; [done | apply wf_heap_a_ab | done | vm_compute; lia |].
  apply (concact_keeps_positions st_a_ab 0 [Some (VStr "a", n_ 1)] [NotFn (VRef 1)]
           eq_refl wf_heap_a_ab eq_refl 4).
  vm_compute; lia.
Defined.

Lemma concact_twice_witness :
  objs st_a_ab !! 0 = Some (OGroup [Some (VStr "a", n_ 1)])
  ∧ wf_heap (objs st_a_ab)
  ∧ forallb (instanceof_Group (objs st_a_ab)) [NotFn (VRef 1)] = true
  ∧ length [Some (VStr "a", n_ 1)]
    + 2 * length (sources (objs st_a_ab) 0 [NotFn (VRef 1)]) < 6
  ∧ longest (objs st_a_ab) [NotFn (VRef 1)] < 6
  ∧ ∃ st1 st2,
      Group.concact 6 [NotFn (VRef 1)] 0 st_a_ab = (Ok 0, st1)
      ∧ Group.concact 6 [NotFn (VRef 1)] 0 st1 = (Ok 0, st2)
      ∧ objs st2 = objs st1.
Proof.
  split_and!; [done | apply wf_heap_a_ab | done | vm_compute; lia | vm_compute; lia |].
  apply (concact_twice st_a_ab 0 [Some (VStr "a", n_ 1)] [NotFn (VRef 1)]
           eq_refl wf_heap_a_ab eq_refl 6); vm_compute; lia.
Defined.

Lemma concact_not_groups_witness :
  forallb (instanceof_Group (objs st_abc)) [NotFn (VStr "x")] = false
  ∧ Group.concact 4 [NotFn (VStr "x")] 0 st_abc
    = (Throw (GroupError "Invalid ...groups parameter. Expected a rest of groups."
                (OfRest [NotFn (VStr "x")])), st_abc).
Proof.
  split; [done|].
  apply (concact_not_groups 4 [NotFn (VStr "x")] 0 st_abc). done.
Defined.
